(** * Wallet health generator: a shallow embedding of [src/wallet-generator.ts]

    The generator drives a regtest Bitcoin node through JSON-RPC.  Every
    method of [WalletHealthGenerator] is embedded as a computation in a
    state-and-exception monad over a [World]: the state of the node (owned
    by an arbitrary gateway), the list of requests issued so far, the files
    under [tmp/], and the position in the stream of [Math.random()] draws.

    Conventions.
    - JS numbers that carry amounts and balances are rationals ([Q]); the
      arithmetic of the code is kept, IEEE rounding is not modelled.
    - [console.log] and [sleep] have no counterpart: they neither fail nor
      touch the node.
    - An exception keeps the effects performed before it was raised. *)

From Stdlib Require Import ZArith QArith Qround Lqa String Ascii List Lia.
From Stdlib Require Import DecimalString.
From stdpp Require Import base option list sorting gmap strings.

Local Open Scope string_scope.
Local Open Scope list_scope.

(** ** Strings *)

(** [s.includes(sub)] *)
Fixpoint includes (s sub : string) : bool :=
  String.prefix sub s ||
  match s with
  | EmptyString => false
  | String _ s' => includes s' sub
  end.

(** [s.replace('_', ' ')] with a string pattern: the first occurrence only. *)
Fixpoint replace_first (a b : ascii) (s : string) : string :=
  match s with
  | EmptyString => EmptyString
  | String c s' => if Ascii.eqb c a then String b s' else String c (replace_first a b s')
  end.

(** [s.replace(/_/g, ' ')]: every occurrence. *)
Fixpoint replace_all (a b : ascii) (s : string) : string :=
  match s with
  | EmptyString => EmptyString
  | String c s' => String (if Ascii.eqb c a then b else c) (replace_all a b s')
  end.

(** [String(n)] for a natural number. *)
Definition toString (n : N) : string := NilZero.string_of_uint (N.to_uint n).

Fixpoint repeat_char (c : ascii) (n : nat) : string :=
  match n with
  | O => EmptyString
  | S n' => String c (repeat_char c n')
  end.

(** [s.padStart(width, c)]: pads on the left, never truncates. *)
Definition padStart (width : nat) (c : ascii) (s : string) : string :=
  repeat_char c (width - String.length s) +:+ s.

(** [xs.join(sep)] *)
Definition join (sep : string) (xs : list string) : string := String.concat sep xs.

(** ** Numbers *)

Definition Qltb (x y : Q) : bool := negb (Qle_bool y x).

Definition Qmax (x y : Q) : Q := if Qle_bool x y then y else x.

(** [Math.floor(x)] *)
Definition Math_floor (x : Q) : Q := inject_Z (Qfloor x).

(** [Number(x.toFixed(8))]: the nearest multiple of 10^-8, ties upwards. *)
Definition toFixed8 (x : Q) : Q :=
  (inject_Z (Qfloor (x * 100000000 + (1 # 2))) / 100000000)%Q.

(** ** The RPC gateway *)

Record JsError := { code : option Z; message : string }.

Record BlockchainInfo := { chain : string; blocks : Z }.

Record ImportRequest := {
  desc : string;
  active : bool;
  range : nat * nat;
  timestamp : string
}.

(** One constructor per method passed to [command(method, ...params)]. *)
Inductive Rpc :=
| getblockchaininfo
| listwallets
| createwallet (wallet_name : string) (disable_private_keys blank : bool)
               (more : option (string * bool * bool))
| loadwallet (wallet_name : string)
| unloadwallet (wallet_name : string)
| getnewaddress
| getbalance
| generatetoaddress (nblocks : nat) (address : string)
| sendtoaddress (address : string) (amount : Q)
| sendmany (dummy : string) (amounts : list (string * Q))
| listdescriptors
| getaddressinfo (address : string)
| createmultisig (nrequired : nat) (keys : list string)
| importdescriptors (requests : list ImportRequest).

(** What the generator reads from each result; [unit] where it reads nothing. *)
Definition Result (r : Rpc) : Type :=
  match r with
  | getblockchaininfo => BlockchainInfo
  | listwallets => list string
  | getnewaddress => string
  | getbalance => Q
  | listdescriptors => list string   (* the [desc] of each entry *)
  | getaddressinfo _ => string       (* [info.pubkey] *)
  | createmultisig _ _ => string     (* [multisigResult.address] *)
  | _ => unit
  end.

(** A request as it leaves a [BitcoinCore] client: [None] is [baseClient],
    [Some w] a client bound to wallet [w]. *)
Definition Call : Type := option string * Rpc.

(** A gateway answers each request from its own state: an error or a result. *)
Definition Gateway (G : Type) : Type :=
  forall (ctx : option string) (r : Rpc), G -> (JsError + Result r) * G.

(** ** Data of the generator *)

(** [this.config]: read from the environment when the generator is built. *)
Record Config := {
  host : string;
  port : N;
  username : string;
  password : string
}.

Record Quorum := { requiredSigners : nat; totalSigners : nat }.

Record ExtendedPublicKey := {
  key_name : string;
  key_xpub : string;
  key_bip32Path : string;
  key_xfp : string;
  key_method : string
}.

Record ClientConfig := {
  client_type : string;
  client_url : string;
  client_username : string;
  client_password : string;
  client_walletName : string
}.

(** [interface WalletConfig]: the fixture document. *)
Record WalletConfig := {
  name : string;
  addressType : string;
  network : string;
  quorum : Quorum;
  extendedPublicKeys : list ExtendedPublicKey;
  client : ClientConfig
}.

(** An entry of [signers]; [wallet] is the wallet its client is bound to. *)
Record Signer := {
  wallet : string;
  xpub : string;
  xfp : string;
  signer_name : string;
  bip32Path : string
}.

Record WalletKeys := { keys_xfp : string; keys_xpub : string; keys_bip32Path : string }.

(** ** Key extraction: the pure part *)

Definition is_hex (c : ascii) : bool :=
  let n := nat_of_ascii c in
  (((48 <=? n) && (n <=? 57)) || ((97 <=? n) && (n <=? 102)) || ((65 <=? n) && (n <=? 70)))%nat.

Definition is_alnum (c : ascii) : bool :=
  let n := nat_of_ascii c in
  (((48 <=? n) && (n <=? 57)) || ((97 <=? n) && (n <=? 122)) || ((65 <=? n) && (n <=? 90)))%nat.

(** The class [[xtpub]]. *)
Definition is_xtpub (c : ascii) : bool :=
  existsb (Ascii.eqb c) ["x"; "t"; "p"; "u"; "b"]%char.

(** The longest prefix whose characters satisfy [p], and the rest. *)
Fixpoint span (p : ascii -> bool) (s : string) : string * string :=
  match s with
  | EmptyString => (EmptyString, EmptyString)
  | String c s' =>
      if p c then let '(run, rest) := span p s' in (String c run, rest)
      else (EmptyString, s)
  end.

Fixpoint string_forallb (p : ascii -> bool) (s : string) : bool :=
  match s with
  | EmptyString => true
  | String c s' => p c && string_forallb p s'
  end.

(** The pattern [/\[([a-fA-F0-9]{8})\/([^\]]+)\]([xtpub][a-zA-Z0-9]+)/]
    anchored at the head of [s].  Both [+] are greedy and are followed by a
    character outside their class or by the end of the pattern, so no
    backtracking can change the outcome. *)
Definition match_here (s : string) : option (string * string * string) :=
  match s with
  | String "[" s1 =>
      let g1 := String.substring 0 8 s1 in
      if (String.length g1 =? 8)%nat && string_forallb is_hex g1 then
        match String.substring 8 (String.length s1 - 8) s1 with
        | String "/" s2 =>
            let '(g2, s3) := span (fun c => negb (Ascii.eqb c "]")) s2 in
            match g2, s3 with
            | String _ _, String "]" (String c s4) =>
                if is_xtpub c then
                  match span is_alnum s4 with
                  | (String d run, _) => Some (g1, g2, String c (String d run))
                  | _ => None
                  end
                else None
            | _, _ => None
            end
        | _ => None
        end
      else None
  | _ => None
  end.

(** [desc.match(pattern)]: the leftmost match, with its three groups. *)
Fixpoint match_descriptor (s : string) : option (string * string * string) :=
  match match_here s with
  | Some groups => Some groups
  | None =>
      match s with
      | EmptyString => None
      | String _ s' => match_descriptor s'
      end
  end.

(** Digits of [x.toString(36)]. *)
Definition digit36 (d : Z) : ascii :=
  if (d <? 10)%Z then ascii_of_nat (48 + Z.to_nat d) else ascii_of_nat (87 + Z.to_nat d).

(** The base-36 expansion of a fraction [0 <= x < 1], at most [fuel] digits,
    stopping when it terminates. *)
Fixpoint fraction36 (fuel : nat) (x : Q) : string :=
  match fuel with
  | O => EmptyString
  | S fuel' =>
      if Qeq_bool x 0 then EmptyString
      else
        let y := (x * 36)%Q in
        let d := Qfloor y in
        String (digit36 d) (fraction36 fuel' (Qred (y - inject_Z d)))
  end.

(** [x.toString(36)] for a draw of [Math.random()].  The number of digits
    printed for a fraction that does not terminate in base 36 is left to
    the engine; eleven are kept here. *)
Definition toString36 (x : Q) : string :=
  if Qeq_bool x 0 then "0" else "0." +:+ fraction36 11 x.

(** The fingerprint used when no descriptor can be read. *)
Definition fallback_xfp (index : N) : string :=
  padStart 4 "0" (toString (index + 1)) +:+ padStart 4 "0" (toString (index + 1)).

(** The placeholder key, from one draw of [Math.random()]. *)
Definition fallback_xpub (r : Q) : string :=
  "tpub661MyMwAqRbcF" +:+ String.substring 2 48 (toString36 r).

(** ** The watcher's descriptor: the pure part *)

(** [xs.sort()] on strings: ascending by code units. *)
Definition sort (xs : list string) : list string := merge_sort String.le xs.

Definition multisigDescriptor (signers : list Signer) : string :=
  let sortedXpubs := sort (map xpub signers) in
  "wsh(sortedmulti(2," +:+ join "," (map (fun xpub => xpub +:+ "/0/*") sortedXpubs) +:+ "))".

(** ** The monad of the generator *)

Inductive Outcome (A : Type) : Type :=
| Done (a : A)
| Raised (e : JsError).
Arguments Done {A} a.
Arguments Raised {A} e.

Section Generator.

Context {G : Type}.

Record World := {
  node : G;                              (* the node behind the gateway *)
  calls : list Call;                     (* requests issued, oldest first *)
  files : gmap string WalletConfig;      (* documents on disk, by path *)
  draws : nat                            (* [Math.random()] calls so far *)
}.

Definition M (A : Type) : Type := World -> Outcome A * World.

#[global] Instance M_ret : MRet M := fun A a w => (Done a, w).

#[global] Instance M_bind : MBind M := fun A B f m w =>
  match m w with
  | (Done a, w') => f a w'
  | (Raised e, w') => (Raised e, w')
  end.

Definition throw {A} (e : JsError) : M A := fun w => (Raised e, w).

(** [try { m } catch (error) { h error }] *)
Definition try_catch {A} (m : M A) (h : JsError -> M A) : M A := fun w =>
  match m w with
  | (Done a, w') => (Done a, w')
  | (Raised e, w') => h e w'
  end.

(** [try { m } catch (error) { break }] inside a loop: [false] stands for
    the [break]. *)
Definition attempt {A} (m : M A) : M bool :=
  try_catch (m;; mret true) (fun _ => mret false).

Variable gw : Gateway G.
Variable rnd : nat -> Q.
Variable cfg : Config.

(** [await client.command(method, ...params)] *)
Definition command (ctx : option string) (r : Rpc) : M (Result r) := fun w =>
  let '(reply, n) := gw ctx r (node w) in
  let w' := {| node := n; calls := calls w ++ [(ctx, r)];
               files := files w; draws := draws w |} in
  match reply with
  | inl e => (Raised e, w')
  | inr v => (Done v, w')
  end.

(** [Math.random()] *)
Definition Math_random : M Q := fun w =>
  (Done (rnd (draws w)),
   {| node := node w; calls := calls w; files := files w; draws := S (draws w) |}).

(** [await fs.access(path)]: rejects when the file is absent. *)
Definition fs_access (path : string) : M unit := fun w =>
  match files w !! path with
  | Some _ => (Done tt, w)
  | None => (Raised {| code := None; message := "ENOENT: no such file or directory" |}, w)
  end.

(** [await fs.mkdir(dir, { recursive: true }); await fs.writeFile(path, JSON.stringify(config, null, 2))] *)
Definition fs_writeFile (path : string) (config : WalletConfig) : M unit := fun w =>
  (Done tt,
   {| node := node w; calls := calls w; files := <[path := config]> (files w);
      draws := draws w |}).

(** A [for] loop over a list whose body runs to completion each round. *)
Fixpoint for_each {A} (xs : list A) (body : A -> M unit) : M unit :=
  match xs with
  | [] => mret tt
  | x :: xs' => body x;; for_each xs' body
  end.

(** A [for] loop whose body reports [false] when it ran [break]. *)
Fixpoint for_each_break {A} (xs : list A) (body : A -> M bool) : M unit :=
  match xs with
  | [] => mret tt
  | x :: xs' => continue ← body x; if continue : bool then for_each_break xs' body else mret tt
  end.

(** *** Environment *)

Definition ensureMinerWallet : M unit :=
  try_catch
    (wallets ← command None listwallets;
     if bool_decide ("miner" ∈ wallets) then mret tt
     else command None (createwallet "miner" false false None);; mret tt)
    (fun error =>
       if includes (message error) "already exists"
       then command None (loadwallet "miner");; mret tt
       else mret tt).

Definition setupInitialState : M unit :=
  try_catch
    (command None (createwallet "miner" false false None);; mret tt)
    (fun error =>
       if negb (includes (message error) "already exists")
       then command None (loadwallet "miner");; mret tt
       else mret tt);;
  address ← command (Some "miner") getnewaddress;
  command None (generatetoaddress 101 address);;
  mret tt.

Definition setupBitcoinEnvironment : M unit :=
  try_catch
    (info ← command None getblockchaininfo;
     if (blocks info <? 101)%Z then setupInitialState else ensureMinerWallet)
    (fun error =>
       throw {| code := None;
                message := "Bitcoin Core not accessible. Make sure Bitcoin Core is running!" |}).

Definition scenario_names : list string :=
  ["bad_privacy"; "bad_waste"; "good_privacy"; "good_waste"].

Definition cleanupPreviousWallets : M unit :=
  for_each scenario_names (fun scenario =>
    for_each [1; 2]%N (fun i =>
      let walletName := scenario +:+ "_signer_" +:+ toString i in
      try_catch (command None (unloadwallet walletName)) (fun _ => mret tt));;
    let watcherName := scenario +:+ "_watcher" in
    try_catch (command None (unloadwallet watcherName)) (fun _ => mret tt)).

(** *** Signer wallets *)

(** Lines 168-192 of [createSignerWallets] and 337-361 of
    [createWatcherWallet]: the same block, up to the [disable_private_keys]
    flag passed to [createwallet]. *)
Definition ensureLoaded (walletName : string) (disable_private_keys : bool) : M unit :=
  try_catch
    (loadedWallets ← command None listwallets;
     if bool_decide (walletName ∈ loadedWallets) then mret tt
     else
       try_catch
         (command None (loadwallet walletName))
         (fun loadError =>
            if bool_decide (code loadError = Some (-18)%Z) then
              command None
                (createwallet walletName disable_private_keys false (Some ("", false, true)))
            else throw loadError))
    (fun error => throw error).

Definition fundWallet (wallet : string) : M unit :=
  currentBalance ← command (Some wallet) getbalance;
  if Qltb 5 currentBalance then mret tt
  else
    address ← command (Some wallet) getnewaddress;
    command None (generatetoaddress 50 address);;
    balanceAfterMining ← command (Some wallet) getbalance;
    (if Qltb balanceAfterMining 1 then
       try_catch
         (ensureMinerWallet;;
          minerBalance ← command (Some "miner") getbalance;
          if Qltb 10 minerBalance then
            command (Some "miner") (sendtoaddress address 5);;
            command None (generatetoaddress 1 address);;
            mret tt
          else mret tt)
         (fun error => mret tt)
     else mret tt);;
    finalBalance ← command (Some wallet) getbalance;
    mret tt.

(** Lines 277-293: the descriptor chosen by [find] and the groups of the
    pattern in it, if both exist. *)
Definition parse_descriptors (descriptors : list string) : option WalletKeys :=
  match List.find (fun d => includes d "pkh" && includes d "/0/*") descriptors with
  | Some desc =>
      match match_descriptor desc with
      | Some (xfp, path, xpub) =>
          Some {| keys_xfp := xfp; keys_xpub := xpub; keys_bip32Path := "m/" +:+ path |}
      | None => None
      end
  | None => None
  end.

(** Lines 298-304: the values returned when nothing was extracted. *)
Definition fallbackKeys (index : N) : M WalletKeys :=
  let xfp := fallback_xfp index in
  r ← Math_random;
  let xpub := fallback_xpub r in
  let bip32Path := "m/84'/1'/0'" in
  mret {| keys_xfp := xfp; keys_xpub := xpub; keys_bip32Path := bip32Path |}.

Definition extractWalletKeys (wallet : string) (index : N) : M WalletKeys :=
  extracted ←
    try_catch
      (descriptors ← command (Some wallet) listdescriptors;
       mret (parse_descriptors descriptors))
      (fun error => mret None);
  match extracted with
  | Some keys => mret keys
  | None => fallbackKeys index
  end.

(** A [for] loop that pushes one value per round. *)
Fixpoint collect {A B} (xs : list A) (body : A -> M B) : M (list B) :=
  match xs with
  | [] => mret []
  | x :: xs' => y ← body x; ys ← collect xs' body; mret (y :: ys)
  end.

Definition createSignerWallets (scenarioName : string) : M (list Signer) :=
  collect [0; 1]%N (fun i =>
    let walletName := scenarioName +:+ "_signer_" +:+ toString (i + 1) in
    ensureLoaded walletName false;;
    let wallet := walletName in
    fundWallet wallet;;
    keys ← extractWalletKeys wallet i;
    mret {| wallet := wallet; xpub := keys_xpub keys; xfp := keys_xfp keys;
            signer_name := walletName; bip32Path := keys_bip32Path keys |}).

(** *** Multisig addresses and the watcher *)

(** [signers[0]]: reading [.wallet] of a missing entry is a [TypeError]. *)
Definition coordinator_of (signers : list Signer) : M string :=
  match signers with
  | s :: _ => mret (wallet s)
  | [] => throw {| code := None;
                   message := "Cannot read properties of undefined (reading 'wallet')" |}
  end.

Definition createMultisigAddress (signers : list Signer) : M (string * list string) :=
  addresses ←
    collect (seq 0 4) (fun i =>
      pubkeys ←
        collect signers (fun signer =>
          address ← command (Some (wallet signer)) getnewaddress;
          info ← command (Some (wallet signer)) (getaddressinfo address);
          mret info);
      first ← coordinator_of signers;
      command (Some first) (createmultisig 2 pubkeys));
  mret (hd "" addresses, addresses).

Definition importMultisigDescriptor (watcherWallet : string) (signers : list Signer) : M unit :=
  try_catch
    (command (Some watcherWallet)
       (importdescriptors
          [{| desc := multisigDescriptor signers; active := true;
              range := (0, 100); timestamp := "now" |}]))
    (fun error => mret tt).

Definition createWatcherWallet (scenarioName : string) (signers : list Signer) : M string :=
  let walletName := scenarioName +:+ "_watcher" in
  ensureLoaded walletName true;;
  let watcherWallet := walletName in
  importMultisigDescriptor watcherWallet signers;;
  mret watcherWallet.

Definition fundMultisigAddresses (addresses : list string) (coordinatorWallet : string) : M unit :=
  balance ← command (Some coordinatorWallet) getbalance;
  if Qltb balance 0.1 then mret tt
  else
    (if Qltb balance 8 then
       let amountPerAddress :=
         Qmax 0.05 ((balance - 0.2) / inject_Z (Z.of_nat (List.length addresses))) in
       for_each_break addresses (fun address =>
         if Qltb 0.02 amountPerAddress then
           let roundedAmount := (Math_floor (amountPerAddress * 100) / 100)%Q in
           attempt (command (Some coordinatorWallet) (sendtoaddress address roundedAmount))
         else mret true)
     else
       for_each addresses (fun address =>
         command (Some coordinatorWallet) (sendtoaddress address 2.0)));;
    minerAddress ← command (Some coordinatorWallet) getnewaddress;
    command None (generatetoaddress 6 minerAddress);;
    mret tt.

Definition createMultisigWallet (scenarioName : string) : M (list Signer * string * string) :=
  signers ← createSignerWallets scenarioName;
  '(multisigAddress, addresses) ← createMultisigAddress signers;
  watcherWallet ← createWatcherWallet scenarioName signers;
  first ← coordinator_of signers;
  fundMultisigAddresses addresses first;;
  mret (signers, multisigAddress, watcherWallet).

(** *** Transaction patterns *)

Definition createBadPrivacyPattern (signers : list Signer) : M unit :=
  coordinator ← coordinator_of signers;
  reusedAddress ← command (Some coordinator) getnewaddress;
  for_each (seq 0 8) (fun i =>
    command (Some coordinator) (sendtoaddress reusedAddress 0.5));;
  let roundAmounts := [1.0; 2.0; 5.0]%Q in
  for_each roundAmounts (fun amount =>
    addr ← command (Some coordinator) getnewaddress;
    command (Some coordinator) (sendtoaddress addr amount));;
  address ← command (Some coordinator) getnewaddress;
  command None (generatetoaddress 3 address);;
  mret tt.

(** [outputs[addr] = amount] on a JS object: a repeated key keeps its place. *)
Fixpoint obj_set (addr : string) (amount : Q) (outputs : list (string * Q)) : list (string * Q) :=
  match outputs with
  | [] => [(addr, amount)]
  | (k, v) :: rest =>
      if String.eqb k addr then (k, amount) :: rest else (k, v) :: obj_set addr amount rest
  end.

(** A loop that requests one address per round and stores an amount under it. *)
Fixpoint fill_outputs (n : nat) (coordinator : string) (amount : M Q)
    (outputs : list (string * Q)) : M (list (string * Q)) :=
  match n with
  | O => mret outputs
  | S n' =>
      addr ← command (Some coordinator) getnewaddress;
      a ← amount;
      fill_outputs n' coordinator amount (obj_set addr a outputs)
  end.

(** [Number((Math.random() * scale + offset).toFixed(8))] *)
Definition random_amount (scale offset : Q) : M Q :=
  r ← Math_random; mret (toFixed8 (r * scale + offset)).

Definition createBadWastePattern (signers : list Signer) : M unit :=
  coordinator ← coordinator_of signers;
  dustOutputs ← fill_outputs 15 coordinator (mret 0.00001%Q) [];
  command (Some coordinator) (sendmany "" dustOutputs);;
  for_each (seq 0 5) (fun i =>
    addr ← command (Some coordinator) getnewaddress;
    command (Some coordinator) (sendtoaddress addr 0.001));;
  for_each (seq 0 10) (fun i =>
    addr ← command (Some coordinator) getnewaddress;
    inefficientAmount ← random_amount 0.1 0.001;
    command (Some coordinator) (sendtoaddress addr inefficientAmount));;
  address ← command (Some coordinator) getnewaddress;
  command None (generatetoaddress 3 address);;
  mret tt.

Definition createGoodPrivacyPattern (signers : list Signer) : M unit :=
  coordinator ← coordinator_of signers;
  balance ← command (Some coordinator) getbalance;
  (if Qltb balance 1 then
     for_each_break (seq 0 3) (fun i =>
       freshAddr ← command (Some coordinator) getnewaddress;
       smallAmount ← random_amount 0.05 0.01;
       attempt (command (Some coordinator) (sendtoaddress freshAddr smallAmount)))
   else
     for_each_break (seq 0 8) (fun i =>
       freshAddr ← command (Some coordinator) getnewaddress;
       randomAmount ← random_amount 0.1 0.01;
       sent ← attempt (command (Some coordinator) (sendtoaddress freshAddr randomAmount));
       if sent : bool then
         Math_random;;   (* the pause [sleep(Math.random() * 500 + 100)] *)
         mret true
       else mret false));;
  address ← command (Some coordinator) getnewaddress;
  command None (generatetoaddress 2 address);;
  mret tt.

Definition createGoodWastePattern (signers : list Signer) : M unit :=
  coordinator ← coordinator_of signers;
  balance ← command (Some coordinator) getbalance;
  (if Qltb balance 1 then
     for_each_break (seq 0 3) (fun i =>
       addr ← command (Some coordinator) getnewaddress;
       smallAmount ← random_amount 0.05 0.01;
       attempt (command (Some coordinator) (sendtoaddress addr smallAmount)))
   else
     for_each_break (seq 0 5) (fun i =>
       addr ← command (Some coordinator) getnewaddress;
       efficientAmount ← random_amount 0.1 0.02;
       attempt (command (Some coordinator) (sendtoaddress addr efficientAmount)));;
     batchOutputs ← fill_outputs 3 coordinator (random_amount 0.05 0.01) [];
     try_catch
       (command (Some coordinator) (sendmany "" batchOutputs))
       (fun error => mret tt));;
  address ← command (Some coordinator) getnewaddress;
  command None (generatetoaddress 2 address);;
  mret tt.

(** *** Export and orchestration *)

(** [path.join(process.cwd(), 'tmp', `${scenarioName}_caravan.json`)],
    relative to the working directory. *)
Definition configPath (scenarioName : string) : string :=
  "tmp/" +:+ scenarioName +:+ "_caravan.json".

Definition caravanConfig (scenarioName : string) (signers : list Signer) : WalletConfig :=
  {| name := replace_first "_" " " scenarioName +:+ " Multisig (2-of-2)";
     addressType := "P2WSH";
     network := "regtest";
     quorum := {| requiredSigners := 2; totalSigners := 2 |};
     extendedPublicKeys :=
       map (fun signer =>
              {| key_name := replace_all "_" " " (signer_name signer);
                 key_xpub := xpub signer;
                 key_bip32Path := bip32Path signer;
                 key_xfp := xfp signer;
                 key_method := "text" |}) signers;
     client :=
       {| client_type := "private";
          client_url := "http://" +:+ host cfg +:+ ":" +:+ toString (port cfg);
          client_username := username cfg;
          client_password := password cfg;
          client_walletName := scenarioName +:+ "_watcher" |} |}.

Definition saveCaravanConfig (scenarioName : string) (signers : list Signer) : M unit :=
  let config := caravanConfig scenarioName signers in
  fs_writeFile (configPath scenarioName) config.

Definition generateBadPrivacyWallet : M unit :=
  '(signers, _, _) ← createMultisigWallet "bad_privacy";
  createBadPrivacyPattern signers;;
  saveCaravanConfig "bad_privacy" signers.

Definition generateBadWasteWallet : M unit :=
  '(signers, _, _) ← createMultisigWallet "bad_waste";
  createBadWastePattern signers;;
  saveCaravanConfig "bad_waste" signers.

Definition generateGoodPrivacyWallet : M unit :=
  '(signers, _, _) ← createMultisigWallet "good_privacy";
  createGoodPrivacyPattern signers;;
  saveCaravanConfig "good_privacy" signers.

Definition generateGoodWasteWallet : M unit :=
  '(signers, _, _) ← createMultisigWallet "good_waste";
  createGoodWastePattern signers;;
  saveCaravanConfig "good_waste" signers.

Definition scenarios : list (string * M unit) :=
  [("bad_privacy", generateBadPrivacyWallet);
   ("bad_waste", generateBadWasteWallet);
   ("good_privacy", generateGoodPrivacyWallet);
   ("good_waste", generateGoodWasteWallet)].

Definition generateAllWallets : M unit :=
  setupBitcoinEnvironment;;
  cleanupPreviousWallets;;
  for_each scenarios (fun scenario =>
    try_catch (fs_access (configPath (fst scenario))) (fun _ => snd scenario)).

End Generator.

Arguments World G : clear implicits.
Arguments M G A : clear implicits.

(** ** A scripted regtest node, for concrete runs *)

Record Node := {
  height : Z;                      (* blocks in the chain *)
  stored : list string;            (* wallets on disk *)
  loaded : list string;            (* wallets loaded *)
  funds : list (string * Q);       (* spendable balance of each wallet *)
  handed : nat;                    (* addresses handed out so far *)
  descriptors : list string        (* what [listdescriptors] reports *)
}.

Definition wallet_not_found : JsError :=
  {| code := Some (-18)%Z; message := "Requested wallet does not exist or is not loaded" |}.
Definition insufficient_funds : JsError :=
  {| code := Some (-6)%Z; message := "Insufficient funds" |}.
Definition database_exists : JsError :=
  {| code := Some (-4)%Z; message := "Wallet file verification failed. Database already exists." |}.
Definition already_loaded : JsError :=
  {| code := Some (-35)%Z; message := "Wallet is already loaded." |}.
Definition connection_refused : JsError :=
  {| code := None; message := "connect ECONNREFUSED 127.0.0.1:18443" |}.

Definition balance_of (ctx : option string) (n : Node) : Q :=
  match ctx with
  | Some w => default 0%Q (snd <$> List.find (fun kv => String.eqb (fst kv) w) (funds n))
  | None => 0%Q
  end.

Definition spend (ctx : option string) (amount : Q) (n : Node) : Node :=
  let rest := List.filter (fun kv => negb (String.eqb (fst kv) (default "" ctx))) (funds n) in
  {| height := height n; stored := stored n; loaded := loaded n;
     funds := (default "" ctx, Qred (balance_of ctx n - amount)) :: rest;
     handed := handed n; descriptors := descriptors n |}.

Definition with_wallets (stored' loaded' : list string) (n : Node) : Node :=
  {| height := height n; stored := stored'; loaded := loaded';
     funds := funds n; handed := handed n; descriptors := descriptors n |}.

(** The node answers every wallet-scoped request, whether or not the wallet
    is loaded; with [enforce_funds] it rejects a payment above the balance. *)
Definition regtest (enforce_funds : bool) : Gateway Node := fun ctx r =>
  match r as r0 return Node -> (JsError + Result r0) * Node with
  | getblockchaininfo => fun n => (inr {| chain := "regtest"; blocks := height n |}, n)
  | listwallets => fun n => (inr (loaded n), n)
  | createwallet w _ _ _ => fun n =>
      if bool_decide (w ∈ stored n) then (inl database_exists, n)
      else (inr tt, with_wallets (w :: stored n) (w :: loaded n) n)
  | loadwallet w => fun n =>
      if bool_decide (w ∈ loaded n) then (inl already_loaded, n)
      else if bool_decide (w ∈ stored n) then (inr tt, with_wallets (stored n) (w :: loaded n) n)
      else (inl wallet_not_found, n)
  | unloadwallet w => fun n =>
      if bool_decide (w ∈ loaded n)
      then (inr tt, with_wallets (stored n) (List.filter (fun x => negb (String.eqb x w)) (loaded n)) n)
      else (inl wallet_not_found, n)
  | getnewaddress => fun n =>
      (inr ("bcrt1q" +:+ toString (N.of_nat (handed n))),
       {| height := height n; stored := stored n; loaded := loaded n; funds := funds n;
          handed := S (handed n); descriptors := descriptors n |})
  | getbalance => fun n => (inr (balance_of ctx n), n)
  | generatetoaddress k _ => fun n =>
      (inr tt,
       {| height := height n + Z.of_nat k; stored := stored n; loaded := loaded n;
          funds := funds n; handed := handed n; descriptors := descriptors n |})
  | sendtoaddress _ amount => fun n =>
      if enforce_funds && Qltb (balance_of ctx n) amount then (inl insufficient_funds, n)
      else (inr tt, spend ctx amount n)
  | sendmany _ amounts => fun n =>
      let total := fold_right Qplus 0%Q (map snd amounts) in
      if enforce_funds && Qltb (balance_of ctx n) total then (inl insufficient_funds, n)
      else (inr tt, spend ctx total n)
  | listdescriptors => fun n => (inr (descriptors n), n)
  | getaddressinfo a => fun n => (inr ("02" +:+ a), n)
  | createmultisig _ keys => fun n => (inr ("2N" +:+ join "" keys), n)
  | importdescriptors _ => fun n => (inr tt, n)
  end.

(** A gateway that rejects the requests selected by [p] and forwards the rest. *)
Definition refusing {G} (p : Call -> bool) (e : JsError) (gw : Gateway G) : Gateway G :=
  fun ctx r n => if p (ctx, r) then (inl e, n) else gw ctx r n.

Definition fresh_node (h : Z) (balances : list (string * Q)) : Node :=
  {| height := h; stored := ["miner"]; loaded := ["miner"]; funds := balances;
     handed := 0; descriptors := [] |}.

Definition start {G} (n : G) : World G :=
  {| node := n; calls := []; files := ∅; draws := 0 |}.

(** A stream of draws: 1/2, 1/4, 1/8, ... *)
Definition halves (i : nat) : Q := 1 # Pos.of_nat (2 ^ S i).

(** [this.config] when the environment sets none of its variables. *)
Definition defaults : Config :=
  {| host := "localhost"; port := 18443; username := "rpcuser"; password := "rpcpass" |}.

(** The world left by a first, complete run on a fresh node that accepts
    every payment. *)
Definition first_run : World Node :=
  (generateAllWallets (regtest false) halves defaults (start (fresh_node 200 []))).2.

Definition signer_1 : Signer :=
  {| wallet := "bad_privacy_signer_1"; xpub := "tpub661MyMwAqRbcFi"; xfp := "00010001";
     signer_name := "bad_privacy_signer_1"; bip32Path := "m/84'/1'/0'" |}.

Definition signer_2 : Signer :=
  {| wallet := "bad_privacy_signer_2"; xpub := "tpub661MyMwAqRbcF9"; xfp := "00020002";
     signer_name := "bad_privacy_signer_2"; bip32Path := "m/84'/1'/0'" |}.

(** ** Vocabulary of the statements *)

(** The world once the node has moved to [n] and the requests [tr] were
    issued; files and random draws are those of [w]. *)
Definition after {G} (w : World G) (n : G) (tr : list Call) : World G :=
  {| node := n; calls := calls w ++ tr; files := files w; draws := draws w |}.

(** The requests a computation issues when run from [w]. *)
Definition issued {G A} (m : M G A) (w : World G) : list Call :=
  drop (length (calls w)) (calls (m w).2).

(** The gateway answers request [r] of client [ctx] with a result, whatever
    the state of the node. *)
Definition accepts {G} (gw : Gateway G) (ctx : option string) (r : Rpc) : Prop :=
  ∀ n, ∃ v n', gw ctx r n = (inr v, n').

(** Requests by method, and by the wallet of the client that sends them. *)
Definition is_createwallet (c : Call) : bool :=
  match c.2 with createwallet _ _ _ _ => true | _ => false end.

Definition is_loadwallet (c : Call) : bool :=
  match c.2 with loadwallet _ => true | _ => false end.

Definition is_getbalance (c : Call) : bool :=
  match c.2 with getbalance => true | _ => false end.

Definition in_wallet (w : string) (c : Call) : bool :=
  bool_decide (c.1 = Some w).

Definition is_getnewaddress (c : Call) : bool :=
  match c.2 with getnewaddress => true | _ => false end.

Definition is_generatetoaddress (c : Call) : bool :=
  match c.2 with generatetoaddress _ _ => true | _ => false end.

Definition is_sendtoaddress (c : Call) : bool :=
  match c.2 with sendtoaddress _ _ => true | _ => false end.

Definition result {A} (o : Outcome A) : option A :=
  match o with Done a => Some a | Raised _ => None end.

(** Key extraction falls back: [listdescriptors] is rejected, or no
    descriptor passes both [find] and the pattern. *)
Definition falls_back {G} (gw : Gateway G) (wallet : string) (w : World G) : Prop :=
  match gw (Some wallet) listdescriptors (node w) with
  | (inl _, _) => True
  | (inr descriptors, _) => parse_descriptors descriptors = None
  end.

Definition digit (d : N) : ascii := ascii_of_N (48 + d).

(** A number below 10000 as four decimal digits, zero-padded: thousands,
    hundreds, tens, units. *)
Definition four_digits (n : N) : string :=
  String (digit (n / 1000 mod 10))
    (String (digit (n / 100 mod 10))
       (String (digit (n / 10 mod 10))
          (String (digit (n mod 10)) EmptyString))).

(** A payment of an amount between 0.01 and 0.06. *)
Definition minimal_value (p : Call) : Prop :=
  match p.2 with
  | sendtoaddress _ amount => (0.01 <= amount)%Q ∧ (amount <= 0.06)%Q
  | _ => False
  end.

(** Every draw of the stream lies in [0, 1), as [Math.random()] promises. *)
Definition unit_draws (rnd : nat → Q) : Prop := ∀ i, (0 <= rnd i)%Q ∧ (rnd i < 1)%Q.

(** The payments among a list of requests, in order. *)
Definition payments (tr : list Call) : list Call := List.filter is_sendtoaddress tr.

(** A payment from wallet [c] of [Number((r * scale + offset).toFixed(8))]
    for some draw [r] of the random stream. *)
Definition random_payment (rnd : nat → Q) (scale offset : Q) (c : string) (p : Call) : Prop :=
  ∃ address i, p = (Some c, sendtoaddress address (toFixed8 (rnd i * scale + offset))).

(** The wallets of the four scenarios, in the order [cleanupPreviousWallets]
    visits them. *)
Definition scenario_wallets : list string :=
  concat (map (fun scenario =>
                 [scenario +:+ "_signer_1"; scenario +:+ "_signer_2"; scenario +:+ "_watcher"])
              scenario_names).

Definition unload (walletName : string) : Call := (None, unloadwallet walletName).

(** Every scenario has its fixture document on disk. *)
Definition fixtures_exist {G} (w : World G) : Prop :=
  Forall (fun scenario => is_Some (files w !! configPath scenario)) scenario_names.

(** The requests of [setupBitcoinEnvironment]: the connection check and the
    bootstrap of the [miner] wallet.  None of them names a scenario wallet. *)
Definition bootstrap_call (c : Call) : bool :=
  match c with
  | (None, getblockchaininfo) => true
  | (None, listwallets) => true
  | (None, createwallet w false false None) => String.eqb w "miner"
  | (None, loadwallet w) => String.eqb w "miner"
  | (Some w, getnewaddress) => String.eqb w "miner"
  | (None, generatetoaddress n _) => Nat.eqb n 101
  | _ => false
  end.

(** The error [setupBitcoinEnvironment] throws in place of any other. *)
Definition not_accessible : JsError :=
  {| code := None;
     message := "Bitcoin Core not accessible. Make sure Bitcoin Core is running!" |}.

(** ** Vocabulary of the further properties *)

(** Run from any world, [m] issues only requests that satisfy [P], leaves
    the files as they are, and returns only values that satisfy [Q]. *)
Definition obeys {G A} (P : Call → Prop) (Q : A → Prop) (m : M G A) : Prop :=
  ∀ w, ∃ tr,
    calls (m w).2 = calls w ++ tr ∧ Forall P tr ∧ files (m w).2 = files w ∧
    ∀ a, (m w).1 = Done a → Q a.

Definition any {A} (a : A) : Prop := True.

(** The wallets a scenario works with: its two signers, its watcher, and
    the shared [miner]. *)
Definition own_wallet (scenario w : string) : Prop :=
  w = "miner" ∨ w = scenario +:+ "_signer_1" ∨ w = scenario +:+ "_signer_2" ∨
  w = scenario +:+ "_watcher".

(** A request that stays within a scenario: sent by a client of one of its
    wallets, or sent by the base client without naming any other wallet. *)
Definition within (scenario : string) (c : Call) : Prop :=
  match c with
  | (Some w, _) => own_wallet scenario w
  | (None, createwallet w _ _ _) => own_wallet scenario w
  | (None, loadwallet w) => own_wallet scenario w
  | (None, unloadwallet w) => own_wallet scenario w
  | (None, _) => True
  end.

Definition owned (scenario : string) (signers : list Signer) : Prop :=
  Forall (fun s => own_wallet scenario (wallet s)) signers.

(** The two signers of a scenario, in order, each bound to the wallet of
    its own name. *)
Definition signers_of (scenario : string) (signers : list Signer) : Prop :=
  map wallet signers = [scenario +:+ "_signer_1"; scenario +:+ "_signer_2"] ∧
  map signer_name signers = [scenario +:+ "_signer_1"; scenario +:+ "_signer_2"].

(** [rest] does not continue a run of characters that satisfy [p]. *)
Definition stops (p : ascii → bool) (rest : string) : Prop :=
  match rest with
  | EmptyString => True
  | String c _ => p c = false
  end.

(** [m] returns normally from every world. *)
Definition completes {G A} (m : M G A) : Prop := ∀ w, ∃ a w', m w = (Done a, w').

Definition is_importdescriptors (c : Call) : bool :=
  match c.2 with importdescriptors _ => true | _ => false end.

Definition is_sendmany (c : Call) : bool :=
  match c.2 with sendmany _ _ => true | _ => false end.

(** The requests [fundWallet] can issue for a wallet: the wallet's own
    balance and address requests, mining of 50 blocks or 1, the bootstrap of
    [miner], and from [miner] its balance and one payment of 5. *)
Definition funding_call (wallet : string) (c : Call) : Prop :=
  match c with
  | (Some w, getbalance) => w = wallet ∨ w = "miner"
  | (Some w, getnewaddress) => w = wallet
  | (Some w, sendtoaddress _ amount) => w = "miner" ∧ amount = 5%Q
  | (None, generatetoaddress n _) => n = 50%nat ∨ n = 1%nat
  | (None, listwallets) => True
  | (None, createwallet w false false None) => w = "miner"
  | (None, loadwallet w) => w = "miner"
  | _ => False
  end.

(** The requests [createMultisigAddress] can issue for [signers]: address
    and public-key requests to a signer's wallet, and to the first signer's
    wallet a [createmultisig] for 2 signatures over one key per signer. *)
Definition multisig_call (signers : list Signer) (c : Call) : Prop :=
  match c with
  | (Some w, getnewaddress) => w ∈ map wallet signers
  | (Some w, getaddressinfo _) => w ∈ map wallet signers
  | (Some w, createmultisig nrequired keys) =>
      head (map wallet signers) = Some w ∧ nrequired = 2%nat ∧ length keys = length signers
  | _ => False
  end.

(** A [sendmany] of between 1 and [limit] outputs to distinct addresses,
    each of an amount that satisfies [ok]. *)
Definition batch (limit : nat) (ok : Q → Prop) (c : Call) : Prop :=
  match c.2 with
  | sendmany _ outputs =>
      NoDup outputs.*1 ∧ Forall (fun kv => ok kv.2) outputs ∧
      (1 ≤ length outputs)%nat ∧ (length outputs ≤ limit)%nat
  | _ => True
  end.

(** A payment, if [c] is one, of an amount between [lo] and [hi]. *)
Definition pays_between (lo hi : Q) (c : Call) : Prop :=
  match c.2 with
  | sendtoaddress _ amount => (lo <= amount)%Q ∧ (amount <= hi)%Q
  | _ => True
  end.

(** * The pure parts on sample inputs *)

Example match_descriptor_pkh :
  match_descriptor "pkh([d34db33f/44'/1'/0']tpubDCabc123/0/*)#abcd" =
  Some ("d34db33f", "44'/1'/0'", "tpubDCabc123").
Proof. reflexivity. Qed.

Example match_descriptor_short_fingerprint :
  match_descriptor "pkh([d34db33/44'/1'/0']tpubDCabc123/0/*)#abcd" = None.
Proof. reflexivity. Qed.

Example parse_descriptors_skips_other_scripts :
  parse_descriptors ["tr([d34db33f/86'/1'/0']tpubF/0/*)"; "wpkh([0a1b2c3d/84'/1'/0']tpubE/0/*)"] =
  Some {| keys_xfp := "0a1b2c3d"; keys_xpub := "tpubE"; keys_bip32Path := "m/84'/1'/0'" |}.
Proof. reflexivity. Qed.

Example toString36_half : toString36 (1 # 2) = "0.i".
Proof. reflexivity. Qed.

Example padStart_keeps_long_strings : padStart 4 "0" (toString 10000) = "10000".
Proof. reflexivity. Qed.

Example caravanConfig_name :
  name (caravanConfig defaults "bad_privacy" []) = "bad privacy Multisig (2-of-2)" ∧
  client_url (client (caravanConfig defaults "bad_privacy" [])) = "http://localhost:18443".
Proof. split; reflexivity. Qed.

(** * Reasoning about runs *)

Section Runs.

Context {G : Type} (gw : Gateway G).

Lemma after_after (w : World G) n tr n' tr' :
  after (after w n tr) n' tr' = after w n' (tr ++ tr').
Proof. unfold after; simpl. by rewrite <- app_assoc. Qed.

Lemma after_nil (w : World G) : after w (node w) [] = w.
Proof. destruct w; unfold after; simpl. by rewrite app_nil_r. Qed.

Lemma command_ok ctx r w v n :
  gw ctx r (node w) = (inr v, n) →
  command gw ctx r w = (Done v, after w n [(ctx, r)]).
Proof. intros H. unfold command. by rewrite H. Qed.

Lemma command_err ctx r w e n :
  gw ctx r (node w) = (inl e, n) →
  command gw ctx r w = (Raised e, after w n [(ctx, r)]).
Proof. intros H. unfold command. by rewrite H. Qed.

Lemma bind_done {A B} (m : M G A) (f : A → M G B) w a w' :
  m w = (Done a, w') → (m ≫= f) w = f a w'.
Proof. intros H. unfold mbind, M_bind. by rewrite H. Qed.

Lemma bind_raised {A B} (m : M G A) (f : A → M G B) w e w' :
  m w = (Raised e, w') → (m ≫= f) w = (Raised e, w').
Proof. intros H. unfold mbind, M_bind. by rewrite H. Qed.

(** A handler that swallows every exception makes the block complete. *)
Lemma catch_all_done (m : M G unit) (w : World G) :
  ∃ w', try_catch m (fun _ => mret tt) w = (Done tt, w').
Proof.
  unfold try_catch. destruct (m w) as [[[]|e] w']; eauto.
Qed.

Lemma accepts_command ctx r (w : World G) :
  accepts gw ctx r → ∃ v n, command gw ctx r w = (Done v, after w n [(ctx, r)]).
Proof.
  intros H. destruct (H (node w)) as (v & n & E). exists v, n. by apply command_ok.
Qed.

Lemma attempt_ok ctx r (w : World G) v n :
  gw ctx r (node w) = (inr v, n) →
  attempt (command gw ctx r) w = (Done true, after w n [(ctx, r)]).
Proof. intros E. unfold attempt, try_catch, mbind, M_bind, command. by rewrite E. Qed.

Lemma attempt_err ctx r (w : World G) e n :
  gw ctx r (node w) = (inl e, n) →
  attempt (command gw ctx r) w = (Done false, after w n [(ctx, r)]).
Proof. intros E. unfold attempt, try_catch, mbind, M_bind, command. by rewrite E. Qed.

Lemma for_each_cons {A} (body : A → M G unit) x xs (w w1 : World G) :
  body x w = (Done tt, w1) → for_each (x :: xs) body w = for_each xs body w1.
Proof. intros H. simpl. by rewrite (bind_done _ _ _ _ _ H). Qed.

End Runs.

(** The world reached by a run equation [E : m w = (o, w')]. *)
Ltac world_of E := match type of E with _ = (_, ?w') => w' end.

Lemma Qltb_lt x y : Qltb x y = true ↔ (x < y)%Q.
Proof.
  unfold Qltb. rewrite negb_true_iff, <- not_true_iff_false, Qle_bool_iff.
  split; [apply Qnot_le_lt | apply Qlt_not_le].
Qed.

Lemma Qltb_ge x y : Qltb x y = false ↔ (y <= x)%Q.
Proof. unfold Qltb. by rewrite negb_false_iff, Qle_bool_iff. Qed.

(** * The funding short-circuit *)

(** C8 (amended): when the first balance read is strictly above 5,
    [fundWallet] returns at once: the balance request is the only request
    issued, and nothing else in the world changes. *)
Theorem fundWallet_short_circuit {G} (gw : Gateway G) wallet w b n :
  gw (Some wallet) getbalance (node w) = (inr b, n) →
  (5 < b)%Q →
  fundWallet gw wallet w = (Done tt, after w n [(Some wallet, getbalance)]).
Proof.
  intros Hbal Hgt. unfold fundWallet.
  rewrite (bind_done _ _ _ _ _ (command_ok gw _ _ _ _ _ Hbal)).
  apply Qltb_lt in Hgt. by rewrite Hgt.
Qed.

Lemma fundWallet_short_circuit_witness :
  fundWallet (regtest true) "alice" (start (fresh_node 200 [("alice", 6%Q)])) =
  (Done tt, after (start (fresh_node 200 [("alice", 6%Q)])) (fresh_node 200 [("alice", 6%Q)])
              [(Some "alice", getbalance)]).
Proof. apply (fundWallet_short_circuit (regtest true) "alice" _ 6%Q); reflexivity. Defined.

(** C8, as stated, fails at a balance of exactly 5: the test is
    [currentBalance > 5], so the wallet is asked for an address and 50
    blocks are mined to it. *)
Lemma fundWallet_balance_5_goes_on :
  (5 <= balance_of (Some "alice") (fresh_node 200 [("alice", 5%Q)]))%Q ∧
  calls (fundWallet (regtest true) "alice" (start (fresh_node 200 [("alice", 5%Q)]))).2 =
    [(Some "alice", getbalance); (Some "alice", getnewaddress);
     (None, generatetoaddress 50 "bcrt1q0"); (Some "alice", getbalance);
     (Some "alice", getbalance)].
Proof. split; [by vm_compute | reflexivity]. Qed.

(** * Ensuring a wallet is loaded *)

(** [Hin : c ∈ [c1; ...; ck]] and [Hp : p c = true] where no [ci] satisfies [p]. *)
Ltac no_such_call Hin Hp :=
  apply list_elem_of_In in Hin; simpl in Hin;
  repeat (destruct Hin as [Hin|Hin]; [subst; discriminate Hp|]);
  contradiction.

Section EnsureLoaded.

Context {G : Type} (gw : Gateway G).

(** Every path through the block, by the answers of the gateway. *)
Lemma ensureLoaded_run walletName flag w :
  let lw := (None, listwallets) in
  let ld := (None, loadwallet walletName) in
  let cr := (None, createwallet walletName flag false (Some ("", false, true))) in
  ensureLoaded gw walletName flag w =
  match gw None listwallets (node w) with
  | (inl e, n) => (Raised e, after w n [lw])
  | (inr ws, n) =>
      if bool_decide (walletName ∈ ws) then (Done tt, after w n [lw])
      else
        match gw None (loadwallet walletName) n with
        | (inr _, n1) => (Done tt, after w n1 [lw; ld])
        | (inl e, n1) =>
            if bool_decide (code e = Some (-18)%Z) then
              match gw None (createwallet walletName flag false (Some ("", false, true))) n1 with
              | (inr _, n2) => (Done tt, after w n2 [lw; ld; cr])
              | (inl e', n2) => (Raised e', after w n2 [lw; ld; cr])
              end
            else (Raised e, after w n1 [lw; ld])
        end
  end.
Proof.
  intros lw ld cr. unfold ensureLoaded, try_catch, mbind, M_bind, command, throw, mret, M_ret, after.
  simpl. destruct (gw None listwallets (node w)) as [[e|ws] n]; simpl in *; [done|].
  destruct (bool_decide (walletName ∈ ws)); simpl; [done|].
  destruct (gw None (loadwallet walletName) n) as [[e|[]] n1]; simpl;
    rewrite <- ?app_assoc; simpl; [|done].
  destruct (bool_decide (code e = Some (-18)%Z)); simpl; [|done].
  destruct (gw None (createwallet _ _ _ _) n1) as [[e'|[]] n2]; simpl;
    by rewrite <- ?app_assoc.
Qed.

End EnsureLoaded.



(** * Funding is best effort, within limits *)




(** * Fallback keys *)

Lemma padStart_four_digits_upto :
  forallb (fun k => String.eqb (padStart 4 "0" (toString (N.of_nat k))) (four_digits (N.of_nat k)))
          (seq 0 (N.to_nat 10000)) = true.
Proof. vm_compute. reflexivity. Qed.

(** [padStart(4, '0')] of the decimal rendering is the four-digit form, as
    long as four digits suffice. *)
Lemma padStart_four_digits (n : N) :
  (n < 10000)%N → padStart 4 "0" (toString n) = four_digits n.
Proof.
  intros Hn. pose proof padStart_four_digits_upto as H.
  rewrite forallb_forall in H.
  specialize (H (N.to_nat n)). rewrite N2Nat.id in H.
  apply String.eqb_eq, H, in_seq. lia.
Qed.

Section Fallback.

Context {G : Type} (gw : Gateway G) (rnd : nat → Q).

(** What [extractWalletKeys] returns when it falls back, and what it costs:
    one request and one draw of [Math.random()]. *)
Lemma extractWalletKeys_fallback wallet index (w : World G) :
  falls_back gw wallet w →
  extractWalletKeys gw rnd wallet index w =
  (Done {| keys_xfp := fallback_xfp index;
           keys_xpub := fallback_xpub (rnd (draws w));
           keys_bip32Path := "m/84'/1'/0'" |},
   {| node := (gw (Some wallet) listdescriptors (node w)).2;
      calls := calls w ++ [(Some wallet, listdescriptors)];
      files := files w;
      draws := S (draws w) |}).
Proof.
  unfold falls_back, extractWalletKeys, fallbackKeys, try_catch, mbind, M_bind,
    command, Math_random, mret, M_ret.
  destruct (gw (Some wallet) listdescriptors (node w)) as [[e|ds] n]; simpl.
  - done.
  - intros ->. done.
Qed.

End Fallback.

(** C5 (amended): when key extraction falls back, the fingerprint is the
    one-based signer number [signerIndex + 1], not [signerIndex], written
    with four zero-padded decimal digits, twice; it has 8 characters as long
    as [signerIndex + 1] fits in four digits. *)
Theorem fallback_fingerprint {G} (gw : Gateway G) (rnd : nat → Q) wallet index (w : World G) :
  falls_back gw wallet w →
  (index + 1 < 10000)%N →
  ∃ keys w',
    extractWalletKeys gw rnd wallet index w = (Done keys, w') ∧
    keys_xfp keys = four_digits (index + 1) +:+ four_digits (index + 1) ∧
    String.length (keys_xfp keys) = 8.
Proof.
  intros Hfb Hlt. eexists _, _. split; [by apply extractWalletKeys_fallback|].
  simpl. unfold fallback_xfp. rewrite padStart_four_digits by done.
  split; reflexivity.
Qed.

Lemma fallback_fingerprint_witness :
  ∃ keys w',
    extractWalletKeys (regtest true) halves "good_waste_signer_2" 1
      (start (fresh_node 200 [])) = (Done keys, w') ∧
    keys_xfp keys = "00020002" ∧ String.length (keys_xfp keys) = 8.
Proof.
  apply (fallback_fingerprint (regtest true) halves "good_waste_signer_2" 1
           (start (fresh_node 200 []))); reflexivity.
Defined.

(** C5, as stated, fails for the first signer: its index is 0 and its
    fallback fingerprint is "00010001", not "00000000". *)
Lemma fallback_fingerprint_of_index_0 :
  keys_xfp <$> result (extractWalletKeys (regtest true) halves "good_waste_signer_1" 0
                         (start (fresh_node 200 []))).1 = Some "00010001" ∧
  "00010001" ≠ four_digits 0 +:+ four_digits 0.
Proof. split; [reflexivity | discriminate]. Qed.

(** C4: the code at two fallbacks for the same [signerIndex] 0.  The
    fingerprint and the path agree, the placeholder key does not: it is
    built from [Math.random()], here drawing 1/2 and then 1/4. *)
Theorem fallback_xpub_follows_the_draw :
  let gw := refusing (fun _ => true) connection_refused (regtest true) in
  let first := extractWalletKeys gw halves "bad_waste_signer_1" 0 (start (fresh_node 200 [])) in
  let second := extractWalletKeys gw halves "bad_waste_signer_1" 0 first.2 in
  result first.1 =
    Some {| keys_xfp := "00010001"; keys_xpub := "tpub661MyMwAqRbcFi";
            keys_bip32Path := "m/84'/1'/0'" |} ∧
  result second.1 =
    Some {| keys_xfp := "00010001"; keys_xpub := "tpub661MyMwAqRbcF9";
            keys_bip32Path := "m/84'/1'/0'" |} ∧
  result first.1 ≠ result second.1.
Proof. split; [reflexivity | split; [reflexivity | discriminate]]. Qed.

(** * The watcher's descriptor *)

Lemma sort_sorted (xs : list string) : Sorted String.le (sort xs).
Proof. apply (Sorted_merge_sort String.le). Qed.

Lemma sort_permutation (xs : list string) : sort xs ≡ₚ xs.
Proof. apply (merge_sort_Permutation String.le). Qed.

(** Sorting forgets the order of its input. *)
Lemma sort_of_permutation (xs ys : list string) : xs ≡ₚ ys → sort xs = sort ys.
Proof.
  intros Hperm. apply (Sorted_unique String.le); try apply sort_sorted.
  by rewrite !sort_permutation.
Qed.

Lemma sort_pair (a b : string) : String.le a b → sort [b; a] = [a; b].
Proof.
  intros Hle. apply (Sorted_unique String.le).
  - apply sort_sorted.
  - repeat constructor. exact Hle.
  - rewrite sort_permutation. apply Permutation_swap.
Qed.

Lemma string_app_assoc (s1 s2 s3 : string) : s1 +:+ s2 +:+ s3 = (s1 +:+ s2) +:+ s3.
Proof.
  induction s1 as [|c s1 IH]; [reflexivity|].
  change (String c (s1 +:+ s2 +:+ s3) = String c ((s1 +:+ s2) +:+ s3)).
  by rewrite IH.
Qed.

(** C6: the descriptor imported into the watcher lists the xpubs in
    ascending order of their characters, whatever the order of the signers:
    any two signer lists with the same xpubs give the same descriptor, and
    the pair [[B; A]] gives the descriptor of [[A; B]], with [A] first. *)
Theorem multisigDescriptor_sorted {G} (gw : Gateway G) (watcher : string)
    (signers signers' : list Signer) (a b : Signer) (w : World G) :
  (map xpub signers ≡ₚ map xpub signers' →
     multisigDescriptor signers = multisigDescriptor signers') ∧
  (∃ xs, Sorted String.le xs ∧ xs ≡ₚ map xpub signers ∧
     multisigDescriptor signers =
       "wsh(sortedmulti(2," +:+ join "," (map (fun x => x +:+ "/0/*") xs) +:+ "))") ∧
  (String.le (xpub a) (xpub b) →
     multisigDescriptor [b; a] = multisigDescriptor [a; b] ∧
     multisigDescriptor [b; a] =
       "wsh(sortedmulti(2," +:+ (xpub a +:+ "/0/*") +:+ "," +:+ (xpub b +:+ "/0/*") +:+ "))") ∧
  issued (importMultisigDescriptor gw watcher signers) w =
    [(Some watcher,
      importdescriptors [{| desc := multisigDescriptor signers; active := true;
                            range := (0, 100); timestamp := "now" |}])].
Proof.
  repeat split.
  - intros Hperm. unfold multisigDescriptor. by rewrite (sort_of_permutation _ _ Hperm).
  - exists (sort (map xpub signers)).
    split; [apply sort_sorted | split; [apply sort_permutation | reflexivity]].
  - unfold multisigDescriptor.
    by rewrite (sort_of_permutation (map xpub [b; a]) (map xpub [a; b]))
      by apply Permutation_swap.
  - unfold multisigDescriptor. simpl map. rewrite (sort_pair _ _ H).
    unfold join. simpl String.concat. by rewrite <- !string_app_assoc.
  - unfold issued, importMultisigDescriptor, try_catch, command.
    destruct (gw _ _ (node w)) as [[e|[]] n]; simpl; by rewrite drop_app_length.
Qed.

Lemma multisigDescriptor_sorted_witness :
  let A := {| wallet := "s1"; xpub := "tpubA"; xfp := "00010001"; signer_name := "s1";
              bip32Path := "m/84'/1'/0'" |} in
  let B := {| wallet := "s2"; xpub := "tpubB"; xfp := "00020002"; signer_name := "s2";
              bip32Path := "m/84'/1'/0'" |} in
  multisigDescriptor [B; A] = multisigDescriptor [A; B] ∧
  multisigDescriptor [B; A] = "wsh(sortedmulti(2,tpubA/0/*,tpubB/0/*))".
Proof.
  intros A B.
  pose proof (multisigDescriptor_sorted (regtest true) "watcher" [B; A] [A; B] A B
                (start (fresh_node 200 []))) as (Hperm & _ & Hpair & _).
  split.
  - apply Hperm. apply Permutation_swap.
  - apply Hpair. exact I.
Defined.

(** * Funding the multisig addresses on a low balance *)

Lemma Qmax_lower (x y : Q) : (x <= Qmax x y)%Q.
Proof.
  unfold Qmax. destruct (Qle_bool x y) eqn:E.
  - by apply Qle_bool_iff.
  - apply Qle_refl.
Qed.

(** Rounding down to two decimals keeps an amount of at least 0.05 there. *)
Lemma rounded_lower (x : Q) : (0.05 <= x)%Q → (0.05 <= Math_floor (x * 100) / 100)%Q.
Proof.
  intros Hx. unfold Math_floor.
  assert (5 <= Qfloor (x * 100))%Z as Hfloor.
  { change 5%Z with (Qfloor 5). apply Qfloor_resp_le.
    apply Qle_trans with (0.05 * 100)%Q; [discriminate|].
    apply Qmult_le_compat_r; [done | discriminate]. }
  revert Hfloor. generalize (Qfloor (x * 100)). intros z Hz.
  unfold Qle, Qdiv, Qmult, Qinv. simpl. lia.
Qed.

Section Attempts.

Context {G : Type} (gw : Gateway G).

(** A loop of guarded requests that stops at the first rejection: the
    requests go out for a prefix of the list, one rejection at most, at its
    end. *)
Lemma attempts_run ctx (mk : string → Rpc) (xs : list string) (w : World G) :
  ∃ (k : nat) n,
    (k ≤ length xs)%nat ∧ (xs ≠ [] → (1 ≤ k)%nat) ∧
    for_each_break xs (fun x => attempt (command gw ctx (mk x))) w =
      (Done tt, after w n (map (fun x => (ctx, mk x)) (take k xs))) ∧
    ((∀ x, accepts gw ctx (mk x)) → k = length xs).
Proof.
  revert w. induction xs as [|x xs IH]; intros w.
  - exists 0, (node w). simpl. rewrite after_nil. repeat split; auto. done.
  - cbn [for_each_break].
    destruct (gw ctx (mk x) (node w)) as [[e|v] n1] eqn:E.
    + rewrite (bind_done _ _ _ _ _ (attempt_err gw _ _ _ _ _ E)).
      exists 1, n1. repeat split; auto; simpl; try lia.
      intros Hacc. destruct (Hacc x (node w)) as (v & n' & E'). congruence.
    + rewrite (bind_done _ _ _ _ _ (attempt_ok gw _ _ _ _ _ E)).
      destruct (IH (after w n1 [(ctx, mk x)])) as (k & n & Hk & _ & Hrun & Hall).
      exists (S k), n. repeat split; auto; simpl; try lia.
      * rewrite Hrun. by rewrite after_after.
      * intros Hacc. by rewrite (Hall Hacc).
Qed.

End Attempts.

Lemma payments_app (tr1 tr2 : list Call) : payments (tr1 ++ tr2) = payments tr1 ++ payments tr2.
Proof. apply List.filter_app. Qed.

Lemma payments_cons (c : Call) (tr : list Call) :
  payments (c :: tr) = (if is_sendtoaddress c then [c] else []) ++ payments tr.
Proof. unfold payments. simpl. by destruct (is_sendtoaddress c). Qed.

Lemma payments_sends ctx (amount : string → Q) (xs : list string) :
  payments (map (fun x => (ctx, sendtoaddress x (amount x))) xs) =
  map (fun x => (ctx, sendtoaddress x (amount x))) xs.
Proof. induction xs as [|x xs IH]; simpl; [done | by rewrite IH]. Qed.




(** * Patterns on a low balance *)

(** Rounding to eight decimals keeps an amount within [0.01, 0.06]. *)
Lemma toFixed8_bounds (x : Q) :
  (0.01 <= x)%Q → (x < 0.06)%Q → (0.01 <= toFixed8 x)%Q ∧ (toFixed8 x <= 0.06)%Q.
Proof.
  intros Hlo Hhi. unfold toFixed8.
  assert (1000000 <= Qfloor (x * 100000000 + (1 # 2)))%Z as H1.
  { change 1000000%Z with (Qfloor 1000000). apply Qfloor_resp_le. lra. }
  assert (Qfloor (x * 100000000 + (1 # 2)) <= 6000000)%Z as H2.
  { pose proof (Qfloor_le (x * 100000000 + (1 # 2))) as Hfl.
    assert (inject_Z (Qfloor (x * 100000000 + (1 # 2))) < 6000000 + (1 # 2))%Q as Hlt by lra.
    revert Hlt. generalize (Qfloor (x * 100000000 + (1 # 2))). intros z.
    unfold Qlt. simpl. lia. }
  revert H1 H2. generalize (Qfloor (x * 100000000 + (1 # 2))). intros z H1 H2.
  unfold Qle, Qdiv, Qmult, Qinv. simpl. lia.
Qed.

Lemma random_payment_minimal (rnd : nat → Q) (c : string) (p : Call) :
  unit_draws rnd → random_payment rnd 0.05 0.01 c p → minimal_value p.
Proof.
  intros Hrnd (address & i & ->). destruct (Hrnd i) as [H0 H1].
  unfold minimal_value. simpl. apply toFixed8_bounds; lra.
Qed.

Lemma halves_unit_draws : unit_draws halves.
Proof.
  intros i. unfold halves, Qle, Qlt. cbn [Qnum Qden].
  assert (2 ^ S i = 2 * 2 ^ i)%nat as -> by reflexivity.
  pose proof (Nat.pow_nonzero 2 i). generalize dependent (2 ^ i)%nat. intros m Hm.
  lia.
Qed.

Section SmallPayments.

Context {G : Type} (gw : Gateway G) (rnd : nat → Q).

(** The degraded loop of the good patterns: every round asks for an
    address, draws an amount and attempts one payment; a rejected payment
    ends the loop, a rejected address request ends the pattern. *)
Lemma small_payments_run (c : string) (scale offset : Q) (xs : list nat) (w : World G) :
  ∃ o w' tr,
    for_each_break xs
      (fun _ => addr ← command gw (Some c) getnewaddress;
                amount ← random_amount rnd scale offset;
                attempt (command gw (Some c) (sendtoaddress addr amount))) w = (o, w') ∧
    calls w' = calls w ++ tr ∧
    files w' = files w ∧
    (length (payments tr) ≤ length xs)%nat ∧
    Forall (random_payment rnd scale offset c) (payments tr) ∧
    (accepts gw (Some c) getnewaddress →
       o = Done tt ∧ (xs ≠ [] → (1 ≤ length (payments tr))%nat)) ∧
    (accepts gw (Some c) getnewaddress →
     (∀ a q, accepts gw (Some c) (sendtoaddress a q)) →
       length (payments tr) = length xs).
Proof.
  revert w. induction xs as [|x xs IH]; intros w.
  { exists (Done tt), w, []. simpl. rewrite app_nil_r. repeat split; auto. done. }
  cbn [for_each_break].
  destruct (gw (Some c) getnewaddress (node w)) as [[e|addr] n1] eqn:E1.
  { exists (Raised e), (after w n1 [(Some c, getnewaddress)]), [(Some c, getnewaddress)].
    split.
    { apply bind_raised, bind_raised.
      exact (command_err gw (Some c) getnewaddress w e n1 E1). }
    assert (¬ accepts gw (Some c) getnewaddress) as Hno.
    { intros Hacc. destruct (Hacc (node w)) as (? & ? & ?). congruence. }
    simpl. repeat split; auto; try lia; try (intros; contradiction). }
  set (amount := toFixed8 (rnd (draws w) * scale + offset)).
  set (w1 := {| node := n1; calls := calls w ++ [(Some c, getnewaddress)];
                files := files w; draws := S (draws w) |}).
  assert (∀ k : bool → M G unit,
            ((addr ← command gw (Some c) getnewaddress;
              amount ← random_amount rnd scale offset;
              attempt (command gw (Some c) (sendtoaddress addr amount))) ≫= k) w =
            (attempt (command gw (Some c) (sendtoaddress addr amount)) ≫= k) w1) as Hround.
  { intros k. unfold mbind at 1 2 3, M_bind at 1 2 3, command at 1, random_amount,
      Math_random, mbind at 1, M_bind at 1, mret, M_ret.
    rewrite E1. reflexivity. }
  rewrite Hround. clear Hround.
  destruct (gw (Some c) (sendtoaddress addr amount) (node w1)) as [[e|[]] n2] eqn:E2.
  - rewrite (bind_done _ _ _ _ _ (attempt_err gw _ _ _ _ _ E2)).
    exists (Done tt), (after w1 n2 [(Some c, sendtoaddress addr amount)]),
      [(Some c, getnewaddress); (Some c, sendtoaddress addr amount)].
    simpl. rewrite <- app_assoc. repeat split; auto; try lia.
    + repeat constructor. by exists addr, (draws w).
    + intros _ Hacc. destruct (Hacc addr amount (node w1)) as (? & ? & ?). congruence.
  - rewrite (bind_done _ _ _ _ _ (attempt_ok gw _ _ _ _ _ E2)).
    destruct (IH (after w1 n2 [(Some c, sendtoaddress addr amount)]))
      as (o & w' & tr & Hrun & Hcalls & Hfiles & Hlen & Hform & Hsafe & Hall).
    exists o, w', ([(Some c, getnewaddress); (Some c, sendtoaddress addr amount)] ++ tr).
    split; [exact Hrun|].
    split; [rewrite Hcalls; simpl; by rewrite <- !app_assoc|].
    split; [by rewrite Hfiles|].
    rewrite payments_app. simpl. repeat split; try lia.
    + constructor; [by exists addr, (draws w) | exact Hform].
    + by apply Hsafe.
    + intros Hacc Hsend. by rewrite (Hall Hacc Hsend).
Qed.

End SmallPayments.




(** * The bad-privacy pattern and its export *)


Section BadPrivacy.

Context {G : Type} (gw : Gateway G).

Lemma collect_length {A B} (body : A → M G B) (xs : list A) (w : World G) ys w' :
  collect xs body w = (Done ys, w') → length ys = length xs.
Proof.
  revert w ys w'. induction xs as [|x xs IH]; intros w ys w'; simpl.
  - unfold mret, M_ret. by intros [= <- _].
  - unfold mbind, M_bind. destruct (body x w) as [[y|e] w1]; [|done].
    destruct (collect xs body w1) as [[ys0|e] w2] eqn:E; [|done].
    unfold mret, M_ret. intros [= <- _]. simpl. f_equal. by eapply IH.
Qed.

(** The same payment, once per round, on a gateway that accepts it. *)
Lemma repeated_payment ctx address amount (xs : list nat) (w : World G) :
  accepts gw ctx (sendtoaddress address amount) →
  ∃ n, for_each xs (fun _ => command gw ctx (sendtoaddress address amount)) w =
       (Done tt, after w n (replicate (length xs) (ctx, sendtoaddress address amount))).
Proof.
  intros Hacc. revert w. induction xs as [|x xs IH]; intros w.
  - exists (node w). simpl. by rewrite after_nil.
  - destruct (accepts_command gw _ _ w Hacc) as ([] & n1 & E1).
    destruct (IH (after w n1 [(ctx, sendtoaddress address amount)])) as (n & E).
    exists n. rewrite (for_each_cons _ _ _ _ _ E1), E. by rewrite after_after.
Qed.

(** One round of the round-amount loop: a fresh address, then the payment. *)
Lemma payment_to_new_address ctx amount (w : World G) :
  accepts gw ctx getnewaddress →
  (∀ a q, accepts gw ctx (sendtoaddress a q)) →
  ∃ address n,
    (addr ← command gw ctx getnewaddress; command gw ctx (sendtoaddress addr amount)) w =
    (Done tt, after w n [(ctx, getnewaddress); (ctx, sendtoaddress address amount)]).
Proof.
  intros Haddr Hsend.
  destruct (accepts_command gw _ _ w Haddr) as (address & n1 & E1).
  destruct (accepts_command gw _ _ (after w n1 [(ctx, getnewaddress)]) (Hsend address amount))
    as ([] & n2 & E2).
  exists address, n2. rewrite (bind_done _ _ _ _ _ E1); cbv beta.
  rewrite E2. by rewrite after_after.
Qed.

End BadPrivacy.




(** * A run over existing fixtures *)

Section SecondRun.

Context {G : Type} (gw : Gateway G).

(** Case analysis on every answer of the gateway met along the way. *)
Ltac gw_cases :=
  repeat match goal with
         | |- context [gw ?c ?r ?n] => destruct (gw c r n) as [[?|?] ?]; simpl
         | |- context [if ?b then _ else _] => destruct b; simpl
         end.

Lemma setupBitcoinEnvironment_run (w : World G) :
  ∃ o n boot,
    setupBitcoinEnvironment gw w = (o, after w n boot) ∧
    forallb bootstrap_call boot = true ∧
    (o = Done tt ∨ o = Raised not_accessible).
Proof.
  unfold setupBitcoinEnvironment, setupInitialState, ensureMinerWallet, try_catch, throw,
    mbind, M_bind, command, mret, M_ret, after. simpl.
  gw_cases;
    rewrite <- ?app_assoc; simpl;
    eexists _, _, _; (split; [reflexivity | split; [reflexivity | auto]]).
Qed.

(** An [unloadwallet] whose failure is ignored. *)
Lemma unload_quietly (walletName : string) (w : World G) :
  ∃ n, try_catch (command gw None (unloadwallet walletName)) (fun _ => mret tt) w =
       (Done tt, after w n [unload walletName]).
Proof.
  unfold try_catch, command, unload, after.
  destruct (gw None (unloadwallet walletName) (node w)) as [[e|[]] n]; by exists n.
Qed.

(** One round of the outer loop of [cleanupPreviousWallets]. *)
Lemma cleanup_round (scenario : string) (w : World G) :
  ∃ n,
    (for_each [1; 2]%N (fun i =>
       try_catch (command gw None (unloadwallet (scenario +:+ "_signer_" +:+ toString i)))
                 (fun _ => mret tt));;
     try_catch (command gw None (unloadwallet (scenario +:+ "_watcher"))) (fun _ => mret tt)) w =
    (Done tt,
     after w n [unload (scenario +:+ "_signer_" +:+ "1"); unload (scenario +:+ "_signer_" +:+ "2");
                unload (scenario +:+ "_watcher")]).
Proof.
  destruct (unload_quietly (scenario +:+ "_signer_" +:+ "1") w) as (n1 & E1).
  destruct (unload_quietly (scenario +:+ "_signer_" +:+ "2")
              (after w n1 [unload (scenario +:+ "_signer_" +:+ "1")])) as (n2 & E2).
  rewrite after_after in E2.
  match type of E2 with _ = (_, ?w2) =>
    destruct (unload_quietly (scenario +:+ "_watcher") w2) as (n3 & E3) end.
  rewrite after_after in E3.
  exists n3. cbn [for_each].
  change (toString 1) with "1". change (toString 2) with "2".
  let w2 := world_of E2 in rewrite (bind_done (_ ≫= _) _ w tt w2); [exact E3|].
  rewrite (bind_done _ _ _ _ _ E1); cbv beta.
  by rewrite (bind_done _ _ _ _ _ E2).
Qed.

Lemma cleanupPreviousWallets_run (w : World G) :
  ∃ n, cleanupPreviousWallets gw w = (Done tt, after w n (map unload scenario_wallets)).
Proof.
  unfold cleanupPreviousWallets, scenario_names.
  set (round := fun scenario : string => _).
  destruct (cleanup_round "bad_privacy" w) as (n1 & E1).
  let w1 := world_of E1 in destruct (cleanup_round "bad_waste" w1) as (n2 & E2).
  rewrite after_after in E2.
  let w2 := world_of E2 in destruct (cleanup_round "good_privacy" w2) as (n3 & E3).
  rewrite after_after in E3.
  let w3 := world_of E3 in destruct (cleanup_round "good_waste" w3) as (n4 & E4).
  rewrite after_after in E4.
  exists n4.
  rewrite (for_each_cons round "bad_privacy" _ _ _ E1),
    (for_each_cons round "bad_waste" _ _ _ E2),
    (for_each_cons round "good_privacy" _ _ _ E3),
    (for_each_cons round "good_waste" _ _ _ E4).
  reflexivity.
Qed.

(** With its document on disk, a scenario is skipped. *)
Lemma skip_existing (scenario : string) (generator : M G unit) (w : World G) :
  is_Some (files w !! configPath scenario) →
  try_catch (fs_access (configPath scenario)) (fun _ => generator) w = (Done tt, w).
Proof. intros [config H]. unfold try_catch, fs_access. by rewrite H. Qed.

(** The scenario loop over a disk that holds all four documents. *)
Lemma scenarios_skipped (rnd : nat → Q) (cfg : Config) (w : World G) :
  fixtures_exist w →
  for_each (scenarios gw rnd cfg)
    (fun scenario => try_catch (fs_access (configPath scenario.1)) (fun _ => scenario.2)) w =
  (Done tt, w).
Proof.
  unfold fixtures_exist, scenario_names, scenarios. intros Hfix.
  inversion_clear Hfix as [|? ? H1 Hfix1]. inversion_clear Hfix1 as [|? ? H2 Hfix2].
  inversion_clear Hfix2 as [|? ? H3 Hfix3]. inversion_clear Hfix3 as [|? ? H4 _].
  set (step := fun scenario : string * M G unit => _).
  rewrite (for_each_cons step ("bad_privacy", _) _ w w)
    by exact (skip_existing "bad_privacy" _ w H1).
  rewrite (for_each_cons step ("bad_waste", _) _ w w)
    by exact (skip_existing "bad_waste" _ w H2).
  rewrite (for_each_cons step ("good_privacy", _) _ w w)
    by exact (skip_existing "good_privacy" _ w H3).
  rewrite (for_each_cons step ("good_waste", _) _ w w)
    by exact (skip_existing "good_waste" _ w H4).
  reflexivity.
Qed.

End SecondRun.


Lemma first_run_fixtures : fixtures_exist first_run.
Proof.
  unfold fixtures_exist, scenario_names.
  repeat (apply List.Forall_cons; [vm_compute; eexists; reflexivity|]).
  apply List.Forall_nil.
Defined.



(** * A logic of requests *)

Section Obeys.

Context {G : Type} (gw : Gateway G).

Lemma obeys_ret {A} P (Q : A → Prop) (a : A) : Q a → obeys (G:=G) P Q (mret a).
Proof.
  intros HQ w. exists []. simpl. rewrite app_nil_r.
  repeat split; auto. by intros ? [= <-].
Qed.

Lemma obeys_throw {A} P (Q : A → Prop) e : obeys (G:=G) P Q (throw e).
Proof. intros w. exists []. simpl. rewrite app_nil_r. repeat split; auto. done. Qed.

Lemma obeys_weaken {A} (P P' : Call → Prop) (Q Q' : A → Prop) (m : M G A) :
  (∀ c, P c → P' c) → (∀ a, Q a → Q' a) → obeys P Q m → obeys P' Q' m.
Proof.
  intros HP HQ Hm w. destruct (Hm w) as (tr & Hc & Htr & Hf & Hres).
  exists tr. repeat split; auto. eapply List.Forall_impl; eauto.
Qed.

Lemma obeys_any {A} P (Q : A → Prop) (m : M G A) : obeys P Q m → obeys P any m.
Proof. apply obeys_weaken; auto. by intros. Qed.

Lemma obeys_bind {A B} P (Q : A → Prop) (R : B → Prop) (m : M G A) (f : A → M G B) :
  obeys P Q m → (∀ a, Q a → obeys P R (f a)) → obeys P R (m ≫= f).
Proof.
  intros Hm Hf w. destruct (Hm w) as (tr1 & Hc1 & Htr1 & Hf1 & Hres1).
  unfold mbind, M_bind. destruct (m w) as [[a|e] w1]; simpl in *.
  - destruct (Hf a (Hres1 a eq_refl) w1) as (tr2 & Hc2 & Htr2 & Hf2 & Hres2).
    exists (tr1 ++ tr2). rewrite Hc2, Hc1, Hf2, Hf1, app_assoc.
    repeat split; auto. by apply Forall_app.
  - exists tr1. repeat split; auto. done.
Qed.

Lemma obeys_catch {A} P (Q : A → Prop) (m : M G A) (h : JsError → M G A) :
  obeys P Q m → (∀ e, obeys P Q (h e)) → obeys P Q (try_catch m h).
Proof.
  intros Hm Hh w. destruct (Hm w) as (tr1 & Hc1 & Htr1 & Hf1 & Hres1).
  unfold try_catch. destruct (m w) as [[a|e] w1]; simpl in *.
  - exists tr1. repeat split; auto.
  - destruct (Hh e w1) as (tr2 & Hc2 & Htr2 & Hf2 & Hres2).
    exists (tr1 ++ tr2). rewrite Hc2, Hc1, Hf2, Hf1, app_assoc.
    repeat split; auto. by apply Forall_app.
Qed.

Lemma obeys_command (P : Call → Prop) ctx r : P (ctx, r) → obeys P any (command gw ctx r).
Proof.
  intros HP w. exists [(ctx, r)]. unfold command.
  destruct (gw ctx r (node w)) as [[e|v] n]; simpl; repeat split; auto.
Qed.

Lemma obeys_random (rnd : nat → Q) P : obeys (G:=G) P any (Math_random rnd).
Proof. intros w. exists []. simpl. rewrite app_nil_r. repeat split; auto. Qed.

Lemma obeys_access P path : obeys (G:=G) P any (fs_access path).
Proof.
  intros w. exists []. unfold fs_access. rewrite app_nil_r.
  destruct (files w !! path); simpl; repeat split; auto.
Qed.

Lemma obeys_attempt {A} P (Q : A → Prop) (m : M G A) : obeys P Q m → obeys P any (attempt m).
Proof.
  intros Hm. unfold attempt. apply obeys_catch.
  - eapply obeys_bind; [exact Hm|]. intros a _. by apply obeys_ret.
  - intros e. by apply obeys_ret.
Qed.

Lemma obeys_for_each {A} P (xs : list A) (body : A → M G unit) :
  (∀ x, obeys P any (body x)) → obeys P any (for_each xs body).
Proof.
  intros Hbody. induction xs as [|x xs IH]; simpl.
  - by apply obeys_ret.
  - eapply obeys_bind; [apply Hbody|]. intros _ _. exact IH.
Qed.

Lemma obeys_for_each_break {A} P (xs : list A) (body : A → M G bool) :
  (∀ x, obeys P any (body x)) → obeys P any (for_each_break xs body).
Proof.
  intros Hbody. induction xs as [|x xs IH]; simpl.
  - by apply obeys_ret.
  - eapply obeys_bind; [apply Hbody|]. intros [] _; [exact IH | by apply obeys_ret].
Qed.

Lemma obeys_collect {A B} P (Q : B → Prop) (xs : list A) (body : A → M G B) :
  (∀ x, obeys P Q (body x)) → obeys P (Forall Q) (collect xs body).
Proof.
  intros Hbody. induction xs as [|x xs IH]; simpl.
  - apply obeys_ret. constructor.
  - eapply obeys_bind; [apply Hbody|]. intros y Hy.
    eapply obeys_bind; [exact IH|]. intros ys Hys.
    apply obeys_ret. by constructor.
Qed.

(** What [obeys] says of the requests issued from one world. *)
Lemma obeys_issued {A} P (Q : A → Prop) (m : M G A) (w : World G) :
  obeys P Q m → Forall P (issued m w).
Proof.
  intros Hm. destruct (Hm w) as (tr & Hc & Htr & _).
  unfold issued. by rewrite Hc, drop_app_length.
Qed.

Lemma obeys_files {A} P (Q : A → Prop) (m : M G A) (w : World G) :
  obeys P Q m → files (m w).2 = files w.
Proof. intros Hm. by destruct (Hm w) as (tr & _ & _ & Hf & _). Qed.

End Obeys.

(** Decomposes a goal [obeys P Q m] along the structure of [m]; [side]
    proves that a request satisfies [P], [known] closes calls of functions
    already dealt with. *)
Ltac obey side known :=
  repeat first
    [ solve [known]
    | lazymatch goal with
      | |- obeys _ _ (mret _) => apply obeys_ret; exact I
      | |- obeys _ _ (throw _) => apply obeys_throw
      | |- obeys ?P _ (command ?gw ?ctx ?r) => apply (obeys_command gw P ctx r); side
      | |- obeys _ _ (Math_random _) => apply obeys_random
      | |- obeys _ _ (fs_access _) => apply obeys_access
      | |- obeys _ _ (attempt _) => eapply obeys_attempt
      | |- obeys _ _ (for_each _ _) => apply obeys_for_each; intros ?
      | |- obeys _ _ (for_each_break _ _) => apply obeys_for_each_break; intros ?
      | |- obeys _ _ (try_catch _ _) => apply obeys_catch; [|intros ?]
      | |- obeys _ _ (_ ≫= _) => eapply obeys_bind with (Q := any); [|intros ? _]
      | |- obeys _ _ (if ?b then _ else _) => destruct b
      | |- obeys _ _ (match ?x with _ => _ end) => destruct x
      end ].

Ltac own :=
  simpl;
  first [ exact I | assumption
        | unfold own_wallet;
          first [ left; reflexivity | right; left; reflexivity
                | right; right; left; reflexivity | right; right; right; reflexivity ] ].

(** * Each scenario keeps to its own wallets *)

Section Within.

Context {G : Type} (gw : Gateway G) (rnd : nat → Q) (scenario : string).

Lemma ensureMinerWallet_within : obeys (within scenario) any (ensureMinerWallet gw).
Proof. unfold ensureMinerWallet. obey own fail. Qed.

Lemma ensureLoaded_within walletName flag :
  own_wallet scenario walletName → obeys (within scenario) any (ensureLoaded gw walletName flag).
Proof. intros Hown. unfold ensureLoaded. obey own fail. Qed.

Lemma fundWallet_within wallet :
  own_wallet scenario wallet → obeys (within scenario) any (fundWallet gw wallet).
Proof.
  intros Hown. unfold fundWallet.
  obey own ltac:(apply ensureMinerWallet_within).
Qed.

Lemma extractWalletKeys_within wallet index :
  own_wallet scenario wallet →
  obeys (within scenario) any (extractWalletKeys gw rnd wallet index).
Proof. intros Hown. unfold extractWalletKeys, fallbackKeys. obey own fail. Qed.

Lemma obeys_collect_in {A B} P (xs : list A) (body : A → M G B) :
  (∀ x, x ∈ xs → obeys P any (body x)) → obeys P any (collect xs body).
Proof.
  intros Hbody. induction xs as [|x xs IH]; simpl.
  - by apply obeys_ret.
  - eapply obeys_bind with (Q := any); [apply Hbody; by left|]. intros y _.
    eapply obeys_bind with (Q := any); [apply IH; intros; apply Hbody; by right|].
    intros ys _. by apply obeys_ret.
Qed.

Lemma fill_outputs_within n coordinator (amount : M G Q) outputs :
  own_wallet scenario coordinator → obeys (within scenario) any amount →
  obeys (within scenario) any (fill_outputs gw n coordinator amount outputs).
Proof.
  intros Hown Hamount. revert outputs. induction n as [|n IH]; intros outputs; simpl.
  - by apply obeys_ret.
  - obey own ltac:(first [apply Hamount | apply IH]).
Qed.

Lemma random_amount_within scale offset :
  obeys (G:=G) (within scenario) any (random_amount rnd scale offset).
Proof. unfold random_amount. obey own fail. Qed.

Lemma coordinator_of_within signers :
  owned scenario signers →
  obeys (G:=G) (within scenario) (own_wallet scenario) (coordinator_of signers).
Proof.
  intros Hsigners. destruct Hsigners as [|s signers Hs _]; simpl.
  - apply obeys_throw.
  - by apply obeys_ret.
Qed.

Lemma signers_of_owned signers : signers_of scenario signers → owned scenario signers.
Proof.
  intros [Hwallets _]. unfold owned.
  destruct signers as [|s1 [|s2 [|s3 rest]]]; try discriminate Hwallets.
  injection Hwallets as H1 H2.
  apply List.Forall_cons; [unfold own_wallet; auto|].
  apply List.Forall_cons; [unfold own_wallet; auto|].
  apply List.Forall_nil.
Qed.

Lemma createSignerWallets_within :
  obeys (within scenario) (signers_of scenario) (createSignerWallets gw rnd scenario).
Proof.
  unfold createSignerWallets. cbn [collect].
  assert (∀ walletName i,
            own_wallet scenario walletName →
            obeys (within scenario)
              (fun s => wallet s = walletName ∧ signer_name s = walletName)
              (ensureLoaded gw walletName false;;
               fundWallet gw walletName;;
               keys ← extractWalletKeys gw rnd walletName i;
               mret {| wallet := walletName; xpub := keys_xpub keys; xfp := keys_xfp keys;
                       signer_name := walletName; bip32Path := keys_bip32Path keys |}))
    as Hround.
  { intros walletName i Hown.
    eapply obeys_bind with (Q := any); [by apply ensureLoaded_within|]. intros _ _.
    eapply obeys_bind with (Q := any); [by apply fundWallet_within|]. intros _ _.
    eapply obeys_bind with (Q := any); [by apply extractWalletKeys_within|]. intros keys _.
    by apply obeys_ret. }
  eapply obeys_bind; [apply (Hround (scenario +:+ "_signer_1") 0%N); own|].
  intros s1 [Hw1 Hn1].
  eapply obeys_bind with (Q := fun rest => map wallet rest = [scenario +:+ "_signer_2"] ∧
                                           map signer_name rest = [scenario +:+ "_signer_2"]).
  - eapply obeys_bind; [apply (Hround (scenario +:+ "_signer_2") 1%N); own|].
    intros s2 [Hw2 Hn2].
    eapply obeys_bind with (Q := fun none => none = []); [by apply obeys_ret|].
    intros none ->. apply obeys_ret. simpl. by rewrite Hw2, Hn2.
  - intros rest [Hw Hn]. apply obeys_ret. unfold signers_of. simpl.
    by rewrite Hw1, Hn1, Hw, Hn.
Qed.

Lemma createMultisigAddress_within signers :
  owned scenario signers → obeys (within scenario) any (createMultisigAddress gw signers).
Proof.
  intros Hsigners. unfold createMultisigAddress.
  eapply obeys_bind with (Q := any); [|intros ? _; by apply obeys_ret].
  apply obeys_collect_in. intros i _.
  eapply obeys_bind with (Q := any).
  - apply obeys_collect_in. intros signer Hin.
    assert (own_wallet scenario (wallet signer)) as Hown.
    { unfold owned in Hsigners. rewrite List.Forall_forall in Hsigners.
      by apply Hsigners, list_elem_of_In. }
    obey own fail.
  - intros pubkeys _.
    eapply obeys_bind; [by apply coordinator_of_within|]. intros first Hfirst.
    obey own fail.
Qed.

Lemma createWatcherWallet_within signers :
  obeys (within scenario) any (createWatcherWallet gw scenario signers).
Proof.
  unfold createWatcherWallet, importMultisigDescriptor.
  obey own ltac:(apply ensureLoaded_within; own).
Qed.

Lemma fundMultisigAddresses_within addresses coordinator :
  own_wallet scenario coordinator →
  obeys (within scenario) any (fundMultisigAddresses gw addresses coordinator).
Proof. intros Hown. unfold fundMultisigAddresses. obey own fail. Qed.

Lemma createMultisigWallet_within :
  obeys (within scenario) (fun made => signers_of scenario made.1.1)
    (createMultisigWallet gw rnd scenario).
Proof.
  unfold createMultisigWallet.
  eapply obeys_bind; [apply createSignerWallets_within|]. intros signers Hmade.
  pose proof (signers_of_owned _ Hmade) as Hsigners.
  eapply obeys_bind with (Q := any); [by apply createMultisigAddress_within|].
  intros [multisigAddress addresses] _.
  eapply obeys_bind with (Q := any); [apply createWatcherWallet_within|]. intros watcher _.
  eapply obeys_bind; [by apply coordinator_of_within|]. intros first Hfirst.
  eapply obeys_bind with (Q := any); [by apply fundMultisigAddresses_within|]. intros _ _.
  by apply obeys_ret.
Qed.

Lemma createBadPrivacyPattern_within signers :
  owned scenario signers → obeys (within scenario) any (createBadPrivacyPattern gw signers).
Proof.
  intros Hsigners. unfold createBadPrivacyPattern.
  eapply obeys_bind; [by apply coordinator_of_within|]. intros coordinator Hown.
  obey own fail.
Qed.

Lemma createBadWastePattern_within signers :
  owned scenario signers → obeys (within scenario) any (createBadWastePattern gw rnd signers).
Proof.
  intros Hsigners. unfold createBadWastePattern, random_amount.
  eapply obeys_bind; [by apply coordinator_of_within|]. intros coordinator Hown.
  obey own ltac:(apply fill_outputs_within; [assumption | by apply obeys_ret]).
Qed.

Lemma createGoodPrivacyPattern_within signers :
  owned scenario signers → obeys (within scenario) any (createGoodPrivacyPattern gw rnd signers).
Proof.
  intros Hsigners. unfold createGoodPrivacyPattern, random_amount.
  eapply obeys_bind; [by apply coordinator_of_within|]. intros coordinator Hown.
  obey own fail.
Qed.

Lemma createGoodWastePattern_within signers :
  owned scenario signers → obeys (within scenario) any (createGoodWastePattern gw rnd signers).
Proof.
  intros Hsigners. unfold createGoodWastePattern.
  eapply obeys_bind; [by apply coordinator_of_within|]. intros coordinator Hown.
  obey own ltac:(first [ apply random_amount_within
                       | apply fill_outputs_within;
                         [assumption | apply random_amount_within] ]).
Qed.

End Within.

(** * Generators write their document last *)

Section Generators.

Context {G : Type} (gw : Gateway G) (rnd : nat → Q) (cfg : Config).

(** The shape shared by the four [generate...Wallet] methods. *)
Lemma generator_run (scenario : string) (pattern : list Signer → M G unit) (w : World G) :
  (∀ signers, owned scenario signers → obeys (within scenario) any (pattern signers)) →
  let generator :=
    '(signers, _, _) ← createMultisigWallet gw rnd scenario;
    pattern signers;; saveCaravanConfig cfg scenario signers in
  Forall (within scenario) (issued generator w) ∧
  ((∃ e, (generator w).1 = Raised e ∧ files (generator w).2 = files w) ∨
   (∃ signers, (generator w).1 = Done tt ∧ signers_of scenario signers ∧
      files (generator w).2 =
        <[configPath scenario := caravanConfig cfg scenario signers]> (files w))).
Proof.
  intros Hpattern generator. subst generator. unfold issued, mbind, M_bind.
  destruct (createMultisigWallet_within gw rnd scenario w) as (tr1 & Hc1 & Htr1 & Hf1 & Hres1).
  destruct (createMultisigWallet gw rnd scenario w) as [[[[signers address] watcher]|e] w1];
    simpl in *.
  2: { rewrite Hc1, drop_app_length. split; [done|]. left. by exists e. }
  pose proof (Hres1 _ eq_refl) as Hmade. simpl in Hmade.
  destruct (Hpattern signers (signers_of_owned scenario signers Hmade) w1)
    as (tr2 & Hc2 & Htr2 & Hf2 & _).
  destruct (pattern signers w1) as [[[]|e] w2]; simpl in *.
  - rewrite Hc2, Hc1, <- app_assoc, drop_app_length. split; [by apply Forall_app|].
    right. exists signers. by rewrite Hf2, Hf1.
  - rewrite Hc2, Hc1, <- app_assoc, drop_app_length. split; [by apply Forall_app|].
    left. exists e. by rewrite Hf2, Hf1.
Qed.

(** The same, for each entry of [scenarios]. *)
Lemma scenario_run (scenario : string) (generator : M G unit) (w : World G) :
  (scenario, generator) ∈ scenarios gw rnd cfg →
  Forall (within scenario) (issued generator w) ∧
  ((∃ e, (generator w).1 = Raised e ∧ files (generator w).2 = files w) ∨
   (∃ signers, (generator w).1 = Done tt ∧ signers_of scenario signers ∧
      files (generator w).2 =
        <[configPath scenario := caravanConfig cfg scenario signers]> (files w))).
Proof.
  intros Hin. apply list_elem_of_In in Hin. simpl in Hin.
  destruct Hin as [[= <- <-]|[[= <- <-]|[[= <- <-]|[[= <- <-]|[]]]]].
  - apply (generator_run "bad_privacy" (createBadPrivacyPattern gw)).
    intros. by apply createBadPrivacyPattern_within.
  - apply (generator_run "bad_waste" (createBadWastePattern gw rnd)).
    intros. by apply createBadWastePattern_within.
  - apply (generator_run "good_privacy" (createGoodPrivacyPattern gw rnd)).
    intros. by apply createGoodPrivacyPattern_within.
  - apply (generator_run "good_waste" (createGoodWastePattern gw rnd)).
    intros. by apply createGoodWastePattern_within.
Qed.

End Generators.

(** X15: each scenario generator of [scenarios] keeps to its own wallets.
    Every request it issues is sent by a client of the scenario's two
    signers, of its watcher or of [miner], or by the base client; and the
    base client creates, loads and unloads no wallet but these. *)
Theorem scenario_keeps_to_its_wallets {G} (gw : Gateway G) (rnd : nat → Q) (cfg : Config)
    (scenario : string) (generator : M G unit) (w : World G) :
  (scenario, generator) ∈ scenarios gw rnd cfg →
  Forall (within scenario) (issued generator w).
Proof. intros Hin. by destruct (scenario_run gw rnd cfg scenario generator w Hin). Qed.

Lemma scenario_keeps_to_its_wallets_witness :
  Forall (within "good_waste")
    (issued (generateGoodWasteWallet (regtest true) halves defaults)
       (start (fresh_node 200 []))).
Proof.
  apply (scenario_keeps_to_its_wallets (regtest true) halves defaults "good_waste").
  apply list_elem_of_In. simpl. auto.
Defined.

(** X16: a scenario generator writes its fixture document as its last
    step.  If it raises, the files are exactly as before; if it completes,
    the only change to the files is the scenario's own document, built from
    the scenario's two signers. *)
Theorem generator_writes_last {G} (gw : Gateway G) (rnd : nat → Q) (cfg : Config)
    (scenario : string) (generator : M G unit) (w : World G) :
  (scenario, generator) ∈ scenarios gw rnd cfg →
  (∃ e, (generator w).1 = Raised e ∧ files (generator w).2 = files w) ∨
  (∃ signers, (generator w).1 = Done tt ∧ signers_of scenario signers ∧
     files (generator w).2 =
       <[configPath scenario := caravanConfig cfg scenario signers]> (files w)).
Proof. intros Hin. by destruct (scenario_run gw rnd cfg scenario generator w Hin). Qed.

Lemma generator_writes_last_witness :
  let w := start (fresh_node 200 [("bad_privacy_signer_1", 5%Q)]) in
  (∃ e, (generateBadPrivacyWallet (regtest true) halves defaults w).1 = Raised e ∧
        files (generateBadPrivacyWallet (regtest true) halves defaults w).2 = files w) ∨
  (∃ signers,
     (generateBadPrivacyWallet (regtest true) halves defaults w).1 = Done tt ∧
     signers_of "bad_privacy" signers ∧
     files (generateBadPrivacyWallet (regtest true) halves defaults w).2 =
       <[configPath "bad_privacy" := caravanConfig defaults "bad_privacy" signers]> (files w)).
Proof.
  intros w.
  apply (generator_writes_last (regtest true) halves defaults "bad_privacy").
  apply list_elem_of_In. simpl. auto.
Defined.

(** * Fixtures across a whole run *)

Section AllWallets.

Context {G : Type} (gw : Gateway G) (rnd : nat → Q) (cfg : Config).

Lemma access_or_generate (scenario : string) (generator : M G unit) (w : World G) :
  try_catch (fs_access (configPath scenario)) (fun _ => generator) w =
  match files w !! configPath scenario with
  | Some _ => (Done tt, w)
  | None => generator w
  end.
Proof. unfold try_catch, fs_access. by destruct (files w !! configPath scenario). Qed.

(** One round of the scenario loop: the files only grow, by the scenario's
    own document at most, and the document is there once the round is done. *)
Lemma scenario_round (scenario : string) (generator : M G unit) (w : World G) :
  (scenario, generator) ∈ scenarios gw rnd cfg →
  let round := try_catch (fs_access (configPath scenario)) (fun _ => generator) w in
  files w ⊆ files round.2 ∧
  (round.1 = Done tt → is_Some (files round.2 !! configPath scenario)) ∧
  (∀ path, is_Some (files round.2 !! path) →
     is_Some (files w !! path) ∨ path = configPath scenario).
Proof.
  intros Hin round. subst round. rewrite access_or_generate.
  destruct (files w !! configPath scenario) as [doc|] eqn:Hdoc; simpl.
  - split; [done|]. split; [intros _; rewrite Hdoc; by eexists | auto].
  - destruct (scenario_run gw rnd cfg scenario generator w Hin) as
      (_ & [(e & Ho & Hf)|(signers & Ho & _ & Hf)]); rewrite Hf, Ho.
    + split; [done|]. split; [done | auto].
    + split; [by apply insert_subseteq|]. split.
      * intros _. rewrite lookup_insert_eq. by eexists.
      * intros path. destruct (decide (configPath scenario = path)) as [<-|Hne]; [auto|].
        rewrite lookup_insert_ne by done. auto.
Qed.

(** What the scenario loop does to the files, for any part of [scenarios]. *)
Lemma scenario_loop (todo : list (string * M G unit)) (w : World G) :
  (∀ entry, entry ∈ todo → entry ∈ scenarios gw rnd cfg) →
  let run :=
    for_each todo (fun scenario =>
      try_catch (fs_access (configPath scenario.1)) (fun _ => scenario.2)) in
  files w ⊆ files (run w).2 ∧
  ((run w).1 = Done tt →
     ∀ entry, entry ∈ todo → is_Some (files (run w).2 !! configPath entry.1)) ∧
  (∀ path, is_Some (files (run w).2 !! path) →
     is_Some (files w !! path) ∨ ∃ entry, entry ∈ todo ∧ path = configPath entry.1).
Proof.
  revert w. induction todo as [|[scenario generator] todo IH]; intros w Hsub; simpl.
  { split; [done|]. split; [intros _ entry Hin; by apply elem_of_nil in Hin | auto]. }
  destruct (scenario_round scenario generator w) as (Hmono & Hmade & Hdom).
  { apply Hsub. by left. }
  unfold mbind, M_bind.
  destruct (try_catch (fs_access (configPath scenario)) (fun _ => generator) w)
    as [[[]|e] w1]; simpl in *.
  - destruct (IH w1) as (Hmono' & Hmade' & Hdom').
    { intros entry Hin. apply Hsub. by right. }
    split; [by etrans|]. split.
    + intros Hdone entry Hin. apply elem_of_cons in Hin as [->|Hin].
      * eapply lookup_weaken_is_Some; [by apply Hmade | exact Hmono'].
      * by apply Hmade'.
    + intros path Hpath. destruct (Hdom' path Hpath) as [Hold|(entry & Hin & ->)].
      * destruct (Hdom path Hold) as [?| ->]; [by left|].
        right. exists (scenario, generator). split; [by left | done].
      * right. exists entry. split; [by right | done].
  - split; [done|]. split; [done|].
    intros path Hpath. destruct (Hdom path Hpath) as [?| ->]; [by left|].
    right. exists (scenario, generator). split; [by left | done].
Qed.

End AllWallets.

(** X17: whatever the gateway answers, [generateAllWallets] never removes
    or rewrites a document that was on disk when it started; the only
    documents it can add are the four fixture documents; and when it
    completes, all four are on disk, so that a next run skips every
    scenario. *)
Theorem generateAllWallets_fixtures {G} (gw : Gateway G) (rnd : nat → Q) (cfg : Config)
    (w : World G) :
  let run := generateAllWallets gw rnd cfg w in
  (∀ path doc, files w !! path = Some doc → files run.2 !! path = Some doc) ∧
  (run.1 = Done tt → fixtures_exist run.2) ∧
  (∀ path, is_Some (files run.2 !! path) →
     is_Some (files w !! path) ∨ path ∈ map configPath scenario_names).
Proof.
  intros run. subst run. unfold generateAllWallets.
  destruct (setupBitcoinEnvironment_run gw w) as (o & n0 & boot & E0 & _ & [-> | ->]).
  2: { rewrite (bind_raised _ _ _ _ _ E0). simpl.
       split; [auto|]. split; [done | auto]. }
  destruct (cleanupPreviousWallets_run gw (after w n0 boot)) as (n1 & E1).
  rewrite (bind_done _ _ _ _ _ E0); cbv beta.
  rewrite (bind_done _ _ _ _ _ E1); cbv beta.
  match goal with |- context [for_each _ _ ?w1] =>
    destruct (scenario_loop gw rnd cfg (scenarios gw rnd cfg) w1) as (Hmono & Hmade & Hdom);
      [auto|] end.
  simpl in Hmono, Hmade, Hdom.
  split; [|split].
  - intros path doc Hdoc. eapply lookup_weaken; [exact Hdoc | exact Hmono].
  - intros Hdone. unfold fixtures_exist, scenario_names.
    repeat (apply List.Forall_cons; [|]).
    5: apply List.Forall_nil.
    + apply (Hmade Hdone ("bad_privacy", generateBadPrivacyWallet gw rnd cfg)).
      apply list_elem_of_In. simpl. auto.
    + apply (Hmade Hdone ("bad_waste", generateBadWasteWallet gw rnd cfg)).
      apply list_elem_of_In. simpl. auto.
    + apply (Hmade Hdone ("good_privacy", generateGoodPrivacyWallet gw rnd cfg)).
      apply list_elem_of_In. simpl. auto.
    + apply (Hmade Hdone ("good_waste", generateGoodWasteWallet gw rnd cfg)).
      apply list_elem_of_In. simpl. auto.
  - intros path Hpath. destruct (Hdom path Hpath) as [?|(entry & Hin & ->)]; [by left|].
    right. apply list_elem_of_In in Hin. simpl in Hin.
    apply list_elem_of_In. simpl.
    destruct Hin as [<-|[<-|[<-|[<-|[]]]]]; auto.
Qed.

Lemma generateAllWallets_fixtures_witness :
  let w := {| node := fresh_node 200 []; calls := [];
              files := {["tmp/bad_privacy_caravan.json" :=
                           caravanConfig defaults "bad_privacy" [signer_1; signer_2]]};
              draws := 0 |} in
  let run := generateAllWallets (regtest false) halves defaults w in
  files run.2 !! "tmp/bad_privacy_caravan.json" =
    Some (caravanConfig defaults "bad_privacy" [signer_1; signer_2]) ∧
  fixtures_exist run.2.
Proof.
  intros w run.
  destruct (generateAllWallets_fixtures (regtest false) halves defaults w) as (Hkept & Hall & _).
  split.
  - apply Hkept. reflexivity.
  - apply Hall. vm_compute. reflexivity.
Defined.

(** X18: when [createSignerWallets] completes it returns exactly two
    signers, [<scenario>_signer_1] then [<scenario>_signer_2], each bound to
    the wallet that bears its name. *)
Theorem createSignerWallets_makes_two_signers {G} (gw : Gateway G) (rnd : nat → Q)
    (scenario : string) (w w' : World G) (signers : list Signer) :
  createSignerWallets gw rnd scenario w = (Done signers, w') →
  signers_of scenario signers ∧ length signers = 2%nat.
Proof.
  intros Hrun.
  destruct (createSignerWallets_within gw rnd scenario w) as (tr & _ & _ & _ & Hres).
  rewrite Hrun in Hres. specialize (Hres signers eq_refl).
  split; [exact Hres|]. destruct Hres as [Hwallets _].
  apply (f_equal length) in Hwallets. by rewrite length_map in Hwallets.
Qed.

Lemma createSignerWallets_makes_two_signers_witness :
  signers_of "bad_waste"
    (default [] (result (createSignerWallets (regtest true) halves "bad_waste"
                           (start (fresh_node 200 []))).1)) ∧
  length (default [] (result (createSignerWallets (regtest true) halves "bad_waste"
                                (start (fresh_node 200 []))).1)) = 2%nat.
Proof.
  eapply (createSignerWallets_makes_two_signers (regtest true) halves "bad_waste"
            (start (fresh_node 200 []))).
  vm_compute. reflexivity.
Defined.

(** * The environment *)

(** Case analysis on every answer of the gateway and every test met along
    the way. *)
Ltac answers gw :=
  repeat match goal with
         | |- context [gw ?c ?r ?n] => destruct (gw c r n) as [[?|?] ?] eqn:?; simpl
         | |- context [if ?b then _ else _] => destruct b eqn:?; simpl
         end.

(** X1: [cleanupPreviousWallets] always completes.  Whatever the gateway
    answers, it issues the twelve [unloadwallet] requests, scenario by
    scenario (signer 1, signer 2, watcher), ignores every failure, and
    touches neither the files nor the random stream. *)
Theorem cleanupPreviousWallets_always_completes {G} (gw : Gateway G) (w : World G) :
  (cleanupPreviousWallets gw w).1 = Done tt ∧
  issued (cleanupPreviousWallets gw) w = map unload scenario_wallets ∧
  length (issued (cleanupPreviousWallets gw) w) = 12%nat ∧
  files (cleanupPreviousWallets gw w).2 = files w ∧
  draws (cleanupPreviousWallets gw w).2 = draws w.
Proof.
  destruct (cleanupPreviousWallets_run gw w) as (n & E).
  unfold issued. rewrite E. simpl. rewrite drop_app_length. by repeat split.
Qed.



(** X3: on a chain of at least 101 blocks [setupBitcoinEnvironment] mines
    nothing and asks for no address: after the connection check it only
    makes sure of the [miner] wallet, with at most three more requests
    ([listwallets], [createwallet], [loadwallet]). *)
Theorem setupBitcoinEnvironment_tall_chain {G} (gw : Gateway G) (w : World G) info n :
  gw None getblockchaininfo (node w) = (inr info, n) →
  (101 ≤ blocks info)%Z →
  List.filter is_generatetoaddress (issued (setupBitcoinEnvironment gw) w) = [] ∧
  List.filter is_getnewaddress (issued (setupBitcoinEnvironment gw) w) = [] ∧
  (length (issued (setupBitcoinEnvironment gw) w) ≤ 4)%nat.
Proof.
  intros Hinfo Htall. apply Z.ltb_ge in Htall.
  unfold issued, setupBitcoinEnvironment, ensureMinerWallet, try_catch, throw,
    mbind, M_bind, command, mret, M_ret.
  rewrite Hinfo. simpl. rewrite Htall. simpl.
  answers gw; rewrite <- ?app_assoc, drop_app_length; simpl;
    repeat split; first [reflexivity | lia].
Qed.

Lemma setupBitcoinEnvironment_tall_chain_witness :
  List.filter is_generatetoaddress
    (issued (setupBitcoinEnvironment (regtest true)) (start (fresh_node 101 []))) = [] ∧
  List.filter is_getnewaddress
    (issued (setupBitcoinEnvironment (regtest true)) (start (fresh_node 101 []))) = [] ∧
  (length (issued (setupBitcoinEnvironment (regtest true)) (start (fresh_node 101 []))) ≤ 4)%nat.
Proof.
  apply (setupBitcoinEnvironment_tall_chain (regtest true) (start (fresh_node 101 []))
           {| chain := "regtest"; blocks := 101 |} (fresh_node 101 [])).
  - reflexivity.
  - simpl. lia.
Defined.

(** X4: how [setupInitialState] recovers from a failed [createwallet] of
    [miner].  When the failure says the wallet "already exists", the wallet
    is not loaded: no [loadwallet] is issued and the address is requested
    straight away.  After any other failure [loadwallet] is issued once.
    When the creation succeeds there is nothing to load. *)
Theorem setupInitialState_recovery {G} (gw : Gateway G) (w : World G) reply n :
  gw None (createwallet "miner" false false None) (node w) = (reply, n) →
  List.filter is_loadwallet (issued (setupInitialState gw) w) =
    match reply with
    | inr _ => []
    | inl e => if includes (message e) "already exists" then []
               else [(None, loadwallet "miner")]
    end.
Proof.
  intros Hcreate.
  unfold issued, setupInitialState, try_catch, mbind, M_bind, command, mret, M_ret.
  rewrite Hcreate. destruct reply as [e|[]]; simpl.
  - destruct (includes (message e) "already exists"); simpl;
      answers gw; by rewrite <- ?app_assoc, drop_app_length.
  - answers gw; by rewrite <- ?app_assoc, drop_app_length.
Qed.

Lemma setupInitialState_recovery_witness :
  let w := {| node := {| height := 0; stored := ["miner"]; loaded := []; funds := [];
                         handed := 0; descriptors := [] |};
              calls := []; files := ∅; draws := 0 |} in
  issued (setupInitialState (regtest true)) w =
    [(None, createwallet "miner" false false None); (Some "miner", getnewaddress);
     (None, generatetoaddress 101 "bcrt1q0")] ∧
  List.filter is_loadwallet (issued (setupInitialState (regtest true)) w) = [].
Proof.
  intros w. split; [reflexivity|].
  apply (setupInitialState_recovery (regtest true) w (inl database_exists) (node w)).
  reflexivity.
Defined.

(** X5: [ensureMinerWallet] is quiet when [miner] is listed as loaded, and
    it can only raise from the [loadwallet] of its handler: any failure of
    [listwallets] or [createwallet] whose message lacks "already exists" is
    swallowed, and the method completes. *)
Theorem ensureMinerWallet_raises_only_on_load {G} (gw : Gateway G) (w : World G) :
  (∀ ws n, gw None listwallets (node w) = (inr ws, n) → "miner" ∈ ws →
     ensureMinerWallet gw w = (Done tt, after w n [(None, listwallets)])) ∧
  (∀ e, (ensureMinerWallet gw w).1 = Raised e →
     ∃ tr, issued (ensureMinerWallet gw) w = tr ++ [(None, loadwallet "miner")]) ∧
  (List.filter is_loadwallet (issued (ensureMinerWallet gw) w) = [] →
     (ensureMinerWallet gw w).1 = Done tt).
Proof.
  split; [|split].
  - intros ws n Hlist Hin.
    unfold ensureMinerWallet, try_catch, mbind, M_bind, command, mret, M_ret.
    rewrite Hlist. simpl. by rewrite bool_decide_eq_true_2.
  - intros e.
    unfold issued, ensureMinerWallet, try_catch, mbind, M_bind, command, mret, M_ret. simpl.
    answers gw; intros [= <-]; rewrite <- ?app_assoc, drop_app_length.
    + by exists [(None, listwallets)].
    + by exists [(None, listwallets); (None, createwallet "miner" false false None)].
  - unfold issued, ensureMinerWallet, try_catch, mbind, M_bind, command, mret, M_ret. simpl.
    answers gw; rewrite <- ?app_assoc, drop_app_length; simpl; done.
Qed.

Lemma ensureMinerWallet_raises_only_on_load_witness :
  let w := start (fresh_node 200 []) in
  ensureMinerWallet (regtest true) w = (Done tt, after w (node w) [(None, listwallets)]) ∧
  (ensureMinerWallet (refusing (fun _ => true) connection_refused (regtest true)) w).1 = Done tt.
Proof.
  intros w. split.
  - destruct (ensureMinerWallet_raises_only_on_load (regtest true) w) as (Hlisted & _).
    apply (Hlisted ["miner"] (node w)); [reflexivity | by left].
  - destruct (ensureMinerWallet_raises_only_on_load
                (refusing (fun _ => true) connection_refused (regtest true)) w)
      as (_ & _ & Hquiet).
    apply Hquiet. reflexivity.
Defined.

(** X6: [extractWalletKeys] never raises and issues exactly one request,
    [listdescriptors], without touching the files.  Keys found in the
    descriptors are returned as they are, with no random draw; the fallback
    costs one draw. *)
Theorem extractWalletKeys_never_raises {G} (gw : Gateway G) (rnd : nat → Q)
    (wallet : string) (index : N) (w : World G) :
  let run := extractWalletKeys gw rnd wallet index w in
  (∃ keys, run.1 = Done keys) ∧
  issued (extractWalletKeys gw rnd wallet index) w = [(Some wallet, listdescriptors)] ∧
  files run.2 = files w ∧
  (∀ descriptors n keys,
     gw (Some wallet) listdescriptors (node w) = (inr descriptors, n) →
     parse_descriptors descriptors = Some keys →
     run = (Done keys, after w n [(Some wallet, listdescriptors)])) ∧
  (falls_back gw wallet w → draws run.2 = S (draws w)).
Proof.
  intros run. subst run.
  unfold issued, falls_back, extractWalletKeys, fallbackKeys, try_catch, mbind, M_bind,
    command, Math_random, mret, M_ret.
  destruct (gw (Some wallet) listdescriptors (node w)) as [[e|ds] n]; simpl.
  - rewrite drop_app_length. split; [eauto|]. split; [done|]. split; [done|].
    split; [|done]. intros ? ? ? [= ].
  - destruct (parse_descriptors ds) as [keys|] eqn:Hparse; simpl; rewrite drop_app_length.
    + split; [eauto|]. split; [done|]. split; [done|]. split; [|done].
      intros ? ? keys' [= <- <-] Hkeys. rewrite Hparse in Hkeys. by injection Hkeys as <-.
    + split; [eauto|]. split; [done|]. split; [done|]. split; [|done].
      intros ? ? keys' [= <- <-] Hkeys. rewrite Hparse in Hkeys. discriminate Hkeys.
Qed.

Lemma extractWalletKeys_never_raises_witness :
  let w := {| node := {| height := 200; stored := ["miner"]; loaded := ["miner"]; funds := [];
                         handed := 0;
                         descriptors := ["wpkh([0a1b2c3d/84'/1'/0']tpubDCxyz/0/*)#k3"] |};
              calls := []; files := ∅; draws := 0 |} in
  extractWalletKeys (regtest true) halves "alice" 0 w =
    (Done {| keys_xfp := "0a1b2c3d"; keys_xpub := "tpubDCxyz"; keys_bip32Path := "m/84'/1'/0'" |},
     after w (node w) [(Some "alice", listdescriptors)]) ∧
  draws (extractWalletKeys (regtest true) halves "alice" 0 (start (fresh_node 200 []))).2 = 1%nat.
Proof.
  intros w. split.
  - destruct (extractWalletKeys_never_raises (regtest true) halves "alice" 0 w)
      as (_ & _ & _ & Hfound & _).
    apply (Hfound (descriptors (node w)) (node w)); reflexivity.
  - destruct (extractWalletKeys_never_raises (regtest true) halves "alice" 0
                (start (fresh_node 200 []))) as (_ & _ & _ & _ & Hdraw).
    apply Hdraw. reflexivity.
Defined.

(** * Reading descriptors *)

Lemma string_app_cons c (s t : string) : String c s +:+ t = String c (s +:+ t).
Proof. reflexivity. Qed.

Lemma string_app_empty_r (s : string) : s +:+ "" = s.
Proof. induction s as [|c s IH]; [done|]. by rewrite string_app_cons, IH. Qed.

Lemma substring_all (s : string) : String.substring 0 (String.length s) s = s.
Proof. induction s as [|c s IH]; simpl; [done | by rewrite IH]. Qed.

Lemma substring_split (n : nat) (s : string) :
  s = String.substring 0 n s +:+ String.substring n (String.length s - n) s.
Proof.
  revert n. induction s as [|c s IH]; intros [|n]; simpl; try reflexivity.
  - by rewrite substring_all.
  - rewrite string_app_cons. f_equal. apply IH.
Qed.

Lemma span_spec (p : ascii → bool) (s run rest : string) :
  span p s = (run, rest) → s = run +:+ rest ∧ string_forallb p run = true.
Proof.
  revert run rest. induction s as [|c s IH]; intros run rest; simpl.
  - by intros [= <- <-].
  - destruct (p c) eqn:Hc.
    + destruct (span p s) as [run' rest'] eqn:E. intros [= <- <-].
      destruct (IH run' rest' eq_refl) as [-> Hrun]. simpl. by rewrite Hc, Hrun.
    + by intros [= <- <-].
Qed.

Lemma match_here_sound (s g1 g2 g3 : string) :
  match_here s = Some (g1, g2, g3) →
  String.length g1 = 8%nat ∧ string_forallb is_hex g1 = true ∧
  g2 ≠ "" ∧ string_forallb (fun c => negb (Ascii.eqb c "]")) g2 = true ∧
  (∃ c d run, g3 = String c (String d run) ∧ is_xtpub c = true ∧
              string_forallb is_alnum (String d run) = true) ∧
  ∃ rest, s = "[" +:+ g1 +:+ "/" +:+ g2 +:+ "]" +:+ g3 +:+ rest.
Proof.
  destruct s as [|a s1]; [discriminate|].
  destruct a as [[] [] [] [] [] [] [] []]; try discriminate.
  unfold match_here.
  destruct ((String.length (String.substring 0 8 s1) =? 8)%nat &&
            string_forallb is_hex (String.substring 0 8 s1)) eqn:E1; [|discriminate].
  apply andb_true_iff in E1 as [Hlen Hhex]. apply Nat.eqb_eq in Hlen.
  pose proof (substring_split 8 s1) as Hs1.
  destruct (String.substring 8 (String.length s1 - 8) s1) as [|b s2]; [discriminate|].
  destruct b as [[] [] [] [] [] [] [] []]; try discriminate.
  destruct (span (fun c => negb (Ascii.eqb c "]")) s2) as [g2' s3] eqn:E2.
  apply span_spec in E2 as [-> Hg2].
  destruct g2' as [|x g2']; [discriminate|].
  destruct s3 as [|r s3]; [discriminate|].
  destruct r as [[] [] [] [] [] [] [] []]; try discriminate.
  destruct s3 as [|c s4]; [discriminate|].
  destruct (is_xtpub c) eqn:Hc; [|discriminate].
  destruct (span is_alnum s4) as [run0 rest] eqn:E3.
  apply span_spec in E3 as [-> Hrun].
  destruct run0 as [|d run]; [discriminate|].
  intros [= <- <- <-].
  split; [done|]. split; [done|]. split; [done|]. split; [done|].
  split; [by exists c, d, run|].
  exists rest. rewrite Hs1 at 1. reflexivity.
Qed.

Lemma match_descriptor_eq (s : string) :
  match_descriptor s =
  match match_here s with
  | Some groups => Some groups
  | None => match s with
            | EmptyString => None
            | String _ s' => match_descriptor s'
            end
  end.
Proof. by destruct s. Qed.

(** X7: whatever [match_descriptor] extracts is well formed and comes from
    the text: the fingerprint is 8 hexadecimal characters, the path is not
    empty and holds no closing bracket, the key starts with one of
    [x t p u b] followed by at least one more character, all letters or
    digits, and the three appear in the descriptor as
    [[fingerprint/path]key]. *)
Theorem match_descriptor_sound (s xfp path xpub : string) :
  match_descriptor s = Some (xfp, path, xpub) →
  String.length xfp = 8%nat ∧ string_forallb is_hex xfp = true ∧
  path ≠ "" ∧ string_forallb (fun c => negb (Ascii.eqb c "]")) path = true ∧
  (∃ c d run, xpub = String c (String d run) ∧ is_xtpub c = true ∧
              string_forallb is_alnum (String d run) = true) ∧
  ∃ before rest, s = before +:+ "[" +:+ xfp +:+ "/" +:+ path +:+ "]" +:+ xpub +:+ rest.
Proof.
  induction s as [|a s IH]; rewrite match_descriptor_eq.
  - discriminate.
  - destruct (match_here (String a s)) as [[[g1 g2] g3]|] eqn:Hhere.
    + intros [= -> -> ->].
      destruct (match_here_sound _ _ _ _ Hhere) as (H1 & H2 & H3 & H4 & H5 & rest & ->).
      repeat (split; [done|]). by exists "", rest.
    + intros Hlater. destruct (IH Hlater) as (H1 & H2 & H3 & H4 & H5 & before & rest & ->).
      repeat (split; [done|]). by exists (String a before), rest.
Qed.

Lemma substring_prefix (a t : string) : String.substring 0 (String.length a) (a +:+ t) = a.
Proof.
  induction a as [|c a IH].
  - change ("" +:+ t) with t. by destruct t.
  - rewrite string_app_cons. simpl. by rewrite IH.
Qed.

Lemma substring_suffix (a t : string) :
  String.substring (String.length a) (String.length (a +:+ t) - String.length a) (a +:+ t) = t.
Proof.
  induction a as [|c a IH].
  - change ("" +:+ t) with t. simpl. rewrite Nat.sub_0_r. apply substring_all.
  - rewrite string_app_cons. simpl. apply IH.
Qed.

Lemma span_app (p : ascii → bool) (run rest : string) :
  string_forallb p run = true → stops p rest → span p (run +:+ rest) = (run, rest).
Proof.
  intros Hrun Hrest. induction run as [|c run IH].
  - change ("" +:+ rest) with rest. destruct rest as [|d rest]; simpl in *; [done|].
    by rewrite Hrest.
  - simpl in Hrun. apply andb_true_iff in Hrun as [Hc Hrun].
    rewrite string_app_cons. simpl. by rewrite Hc, (IH Hrun).
Qed.

Lemma match_here_complete (xfp path key rest : string) (c : ascii) :
  String.length xfp = 8%nat → string_forallb is_hex xfp = true →
  path ≠ "" → string_forallb (fun c => negb (Ascii.eqb c "]")) path = true →
  is_xtpub c = true → key ≠ "" → string_forallb is_alnum key = true → stops is_alnum rest →
  match_here ("[" +:+ xfp +:+ "/" +:+ path +:+ "]" +:+ String c key +:+ rest) =
  Some (xfp, path, String c key).
Proof.
  intros Hlen Hhex Hpath1 Hpath2 Hc Hkey1 Hkey2 Hrest.
  change ("[" +:+ xfp +:+ "/" +:+ path +:+ "]" +:+ String c key +:+ rest)
    with (String "[" (xfp +:+ String "/" (path +:+ String "]" (String c (key +:+ rest))))).
  unfold match_here. rewrite <- Hlen.
  rewrite substring_prefix, substring_suffix, Nat.eqb_refl, Hhex. simpl.
  rewrite (span_app _ path) by done.
  destruct path as [|x path]; [done|].
  rewrite Hc, (span_app _ key) by done.
  by destruct key.
Qed.

Lemma match_here_other (a : ascii) (s : string) :
  Ascii.eqb a "[" = false → match_here (String a s) = None.
Proof. destruct a as [[] [] [] [] [] [] [] []]; try reflexivity. discriminate. Qed.

Lemma match_descriptor_skip (before s : string) :
  string_forallb (fun c => negb (Ascii.eqb c "[")) before = true →
  match_descriptor (before +:+ s) = match_descriptor s.
Proof.
  intros Hbefore. induction before as [|a before IH]; [done|].
  simpl in Hbefore. apply andb_true_iff in Hbefore as [Ha Hbefore].
  rewrite string_app_cons, match_descriptor_eq, match_here_other; [by apply IH|].
  by apply negb_true_iff.
Qed.

Lemma includes_app_r (t s sub : string) : includes s sub = true → includes (t +:+ s) sub = true.
Proof.
  intros Hs. induction t as [|c t IH]; [done|].
  rewrite string_app_cons. simpl. rewrite IH. by rewrite orb_true_r.
Qed.

(** X8: a [pkh] descriptor written in the node's format is read back
    exactly.  For a fingerprint of 8 hexadecimal characters, a non-empty
    path without a closing bracket and a key of letters and digits that
    starts with one of [x t p u b], the descriptor that wraps
    [[fingerprint/path]key] and the receive branch in [pkh(...)], with any
    checksum after it, at the head of the list yields that fingerprint,
    that key and the path prefixed with [m/]. *)
Theorem parse_descriptors_reads_back (xfp path key checksum : string) (c : ascii)
    (others : list string) :
  String.length xfp = 8%nat → string_forallb is_hex xfp = true →
  path ≠ "" → string_forallb (fun c => negb (Ascii.eqb c "]")) path = true →
  is_xtpub c = true → key ≠ "" → string_forallb is_alnum key = true →
  parse_descriptors
    (("pkh([" +:+ xfp +:+ "/" +:+ path +:+ "]" +:+ String c key +:+ "/0/*)" +:+ checksum)
       :: others) =
  Some {| keys_xfp := xfp; keys_xpub := String c key; keys_bip32Path := "m/" +:+ path |}.
Proof.
  intros Hlen Hhex Hpath1 Hpath2 Hc Hkey1 Hkey2.
  unfold parse_descriptors, List.find.
  assert (includes ("pkh([" +:+ xfp +:+ "/" +:+ path +:+ "]" +:+ String c key +:+ "/0/*)"
                    +:+ checksum) "pkh" = true) as ->.
  { reflexivity. }
  assert (includes ("pkh([" +:+ xfp +:+ "/" +:+ path +:+ "]" +:+ String c key +:+ "/0/*)"
                    +:+ checksum) "/0/*" = true) as ->.
  { rewrite !string_app_assoc.
    rewrite <- (string_app_assoc _ "/0/*)" checksum).
    apply includes_app_r. reflexivity. }
  simpl andb. cbv iota.
  change ("pkh([" +:+ xfp +:+ "/" +:+ path +:+ "]" +:+ String c key +:+ "/0/*)" +:+ checksum)
    with ("pkh(" +:+ ("[" +:+ xfp +:+ "/" +:+ path +:+ "]" +:+ String c key +:+
                      ("/0/*)" +:+ checksum))).
  rewrite match_descriptor_skip by reflexivity.
  rewrite match_descriptor_eq, match_here_complete by done.
  reflexivity.
Qed.

Lemma match_descriptor_sound_witness :
  String.length "0a1b2c3d" = 8%nat ∧
  ∃ before rest,
    "wpkh([0a1b2c3d/84'/1'/0']tpubDCxyz/0/*)#k3" =
    before +:+ "[" +:+ "0a1b2c3d" +:+ "/" +:+ "84'/1'/0'" +:+ "]" +:+ "tpubDCxyz" +:+ rest.
Proof.
  destruct (match_descriptor_sound "wpkh([0a1b2c3d/84'/1'/0']tpubDCxyz/0/*)#k3"
              "0a1b2c3d" "84'/1'/0'" "tpubDCxyz" eq_refl) as (Hlen & _ & _ & _ & _ & Hocc).
  split; [exact Hlen | exact Hocc].
Defined.

Lemma parse_descriptors_reads_back_witness :
  parse_descriptors ["pkh([d34db33f/44'/1'/0']tpubD6Nz/0/*)#9xq"; "wpkh([d34db33f/84'/1'/0']tpubD7/0/*)"] =
  Some {| keys_xfp := "d34db33f"; keys_xpub := "tpubD6Nz"; keys_bip32Path := "m/44'/1'/0'" |}.
Proof.
  apply (parse_descriptors_reads_back "d34db33f" "44'/1'/0'" "pubD6Nz" "#9xq" "t");
    first [reflexivity | discriminate].
Defined.

(** * Funding the multisig addresses: the other branches *)

(** X9: with a balance below 0.1 [fundMultisigAddresses] returns at once:
    the balance request is its only request, so no address is funded and no
    block is mined. *)
Theorem fundMultisigAddresses_skips {G} (gw : Gateway G) (addresses : list string)
    (coordinator : string) (w : World G) (b : Q) (n : G) :
  gw (Some coordinator) getbalance (node w) = (inr b, n) →
  (b < 0.1)%Q →
  fundMultisigAddresses gw addresses coordinator w =
    (Done tt, after w n [(Some coordinator, getbalance)]).
Proof.
  intros Hbal Hlow. unfold fundMultisigAddresses.
  rewrite (bind_done _ _ _ _ _ (command_ok gw _ _ _ _ _ Hbal)).
  apply Qltb_lt in Hlow. by rewrite Hlow.
Qed.

Lemma fundMultisigAddresses_skips_witness :
  let w := start (fresh_node 200 [("alice", 0.09%Q)]) in
  fundMultisigAddresses (regtest true) ["a1"; "a2"; "a3"; "a4"] "alice" w =
    (Done tt, after w (node w) [(Some "alice", getbalance)]).
Proof.
  intros w.
  apply (fundMultisigAddresses_skips (regtest true) _ "alice" w 0.09%Q); reflexivity.
Defined.

Section FullFunding.

Context {G : Type} (gw : Gateway G).

(** A loop of unguarded payments: it goes through a prefix of the list and
    completes only at its end. *)
Lemma payments_run ctx (amount : Q) (xs : list string) (w : World G) :
  ∃ (k : nat) n o,
    for_each xs (fun x => command gw ctx (sendtoaddress x amount)) w =
      (o, after w n (map (fun x => (ctx, sendtoaddress x amount)) (take k xs))) ∧
    (o = Done tt → k = length xs) ∧
    ((k < length xs)%nat → ∃ e, o = Raised e) ∧
    ((∀ x, accepts gw ctx (sendtoaddress x amount)) → o = Done tt).
Proof.
  revert w. induction xs as [|x xs IH]; intros w.
  { exists 0%nat, (node w), (Done tt). simpl. rewrite after_nil.
    repeat split; auto. lia. }
  cbn [for_each].
  destruct (gw ctx (sendtoaddress x amount) (node w)) as [[e|[]] n1] eqn:E.
  - rewrite (bind_raised _ _ _ _ _ (command_err gw ctx (sendtoaddress x amount) w e n1 E)).
    exists 1%nat, n1, (Raised e). simpl. rewrite ?take_0.
    split; [done|]. split; [done|]. split; [eauto|].
    intros Hacc. destruct (Hacc x (node w)) as (? & ? & ?). congruence.
  - rewrite (bind_done _ _ _ _ _ (command_ok gw ctx (sendtoaddress x amount) w tt n1 E)).
    destruct (IH (after w n1 [(ctx, sendtoaddress x amount)]))
      as (k & n & o & Hrun & Hall & Hshort & Hacc).
    exists (S k), n, o. rewrite Hrun, after_after. simpl.
    split; [done|]. split; [|split; [|done]].
    + intros Ho. by rewrite (Hall Ho).
    + intros Hk. apply Hshort. lia.
Qed.

End FullFunding.

Lemma no_mining_among_payments ctx (amount : Q) (xs : list string) :
  List.filter is_generatetoaddress (map (fun x => (ctx, sendtoaddress x amount)) xs) = [].
Proof. induction xs as [|x xs IH]; simpl; [done | exact IH]. Qed.

(** X10: with a balance of at least 8 [fundMultisigAddresses] pays 2.0 to
    the addresses in order, without guarding any payment.  If it stops
    before the last address, it is because a payment was rejected: the
    error reaches the caller and nothing is mined.  It completes only after
    a payment to every address, one address request and one
    [generatetoaddress] of 6 blocks, and it does complete when the gateway
    accepts these requests. *)
Theorem fundMultisigAddresses_full {G} (gw : Gateway G) (addresses : list string)
    (coordinator : string) (w : World G) (b : Q) (n1 : G) :
  gw (Some coordinator) getbalance (node w) = (inr b, n1) →
  (8 <= b)%Q →
  let c := Some coordinator in
  let run := fundMultisigAddresses gw addresses coordinator in
  ∃ k : nat,
    payments (issued run w) = map (fun a => (c, sendtoaddress a 2.0)) (take k addresses) ∧
    ((k < length addresses)%nat →
       (∃ e, (run w).1 = Raised e) ∧ List.filter is_generatetoaddress (issued run w) = []) ∧
    ((run w).1 = Done tt →
       ∃ a, issued run w =
              [(c, getbalance)] ++ map (fun a => (c, sendtoaddress a 2.0)) addresses ++
              [(c, getnewaddress); (None, generatetoaddress 6 a)]) ∧
    ((∀ a, accepts gw c (sendtoaddress a 2.0)) → accepts gw c getnewaddress →
     (∀ a, accepts gw None (generatetoaddress 6 a)) → (run w).1 = Done tt).
Proof.
  intros Hbal Hhigh c run. subst c.
  assert (Qltb b 0.1 = false) as Hskip.
  { apply Qltb_ge. eapply Qle_trans; [|exact Hhigh]. discriminate. }
  assert (Qltb b 8 = false) as Hfull by (by apply Qltb_ge).
  destruct (payments_run gw (Some coordinator) 2.0 addresses (after w n1 [(Some coordinator, getbalance)]))
    as (k & n2 & o & Hloop & Hall & Hshort & Hacc).
  rewrite after_after in Hloop.
  exists k. subst run. unfold issued, fundMultisigAddresses.
  rewrite (bind_done _ _ _ _ _ (command_ok gw _ _ _ _ _ Hbal)); cbv beta.
  rewrite Hskip, Hfull.
  destruct o as [[]|e].
  2: { rewrite (bind_raised _ _ _ _ _ Hloop). simpl.
       rewrite drop_app_length, payments_cons, (payments_sends (Some coordinator) (fun _ => 2.0%Q)). simpl.
       split; [done|]. split; [|split; [done|]].
       - intros _. split; [by exists e | apply no_mining_among_payments].
       - intros Hsend _ _. by specialize (Hacc Hsend). }
  specialize (Hall eq_refl). subst k. rewrite firstn_all in *.
  rewrite (bind_done _ _ _ _ _ Hloop); cbv beta.
  match goal with |- context [command gw (Some coordinator) getnewaddress ≫= ?f] => set (rest := f) end.
  destruct (gw (Some coordinator) getnewaddress n2) as [[e|a] n3] eqn:E3.
  { rewrite (bind_raised _ _ _ _ _
               (command_err gw (Some coordinator) getnewaddress (after w n2 _) e n3 E3)). simpl.
    rewrite <- ?app_assoc, drop_app_length.
    repeat (rewrite payments_app || rewrite payments_cons).
    rewrite (payments_sends (Some coordinator) (fun _ => 2.0%Q)). simpl. rewrite ?app_nil_r.
    split; [done|]. split; [lia|]. split; [done|].
    intros _ Haddr _. destruct (Haddr n2) as (? & ? & ?). congruence. }
  rewrite (bind_done _ _ _ _ _ (command_ok gw (Some coordinator) getnewaddress (after w n2 _) a n3 E3)).
  subst rest. cbv beta. rewrite after_after.
  destruct (gw None (generatetoaddress 6 a) n3) as [[e|[]] n4] eqn:E4.
  - rewrite (bind_raised _ _ _ _ _
               (command_err gw None (generatetoaddress 6 a) (after w n3 _) e n4 E4)). simpl.
    rewrite <- ?app_assoc, drop_app_length.
    repeat (rewrite payments_app || rewrite payments_cons).
    rewrite (payments_sends (Some coordinator) (fun _ => 2.0%Q)). simpl. rewrite ?app_nil_r.
    split; [done|]. split; [lia|]. split; [done|].
    intros _ _ Hmine. destruct (Hmine a n3) as (? & ? & ?). congruence.
  - rewrite (bind_done _ _ _ _ _
               (command_ok gw None (generatetoaddress 6 a) (after w n3 _) tt n4 E4)). simpl.
    rewrite <- ?app_assoc, drop_app_length.
    repeat (rewrite payments_app || rewrite payments_cons).
    rewrite (payments_sends (Some coordinator) (fun _ => 2.0%Q)). simpl. rewrite ?app_nil_r.
    split; [done|]. split; [lia|]. split; [|done].
    intros _. exists a. by rewrite <- ?app_assoc.
Qed.

Lemma fundMultisigAddresses_full_witness :
  let w := start (fresh_node 200 [("alice", 8%Q)]) in
  (fundMultisigAddresses (regtest false) ["a1"; "a2"; "a3"; "a4"] "alice" w).1 = Done tt.
Proof.
  intros w.
  destruct (fundMultisigAddresses_full (regtest false) ["a1"; "a2"; "a3"; "a4"] "alice" w
              8%Q (node w) eq_refl) as (k & _ & _ & _ & Hdone).
  { unfold Qle. simpl. lia. }
  apply Hdone.
  - intros a n. eexists _, _. reflexivity.
  - intros n. eexists _, _. reflexivity.
  - intros a n. eexists _, _. reflexivity.
Defined.

(** * The requests of [fundWallet] *)

Section Funding.

Context {G : Type} (gw : Gateway G).

Lemma ensureMinerWallet_funding wallet : obeys (funding_call wallet) any (ensureMinerWallet gw).
Proof. unfold ensureMinerWallet. obey ltac:(simpl; auto) fail. Qed.

Lemma fundWallet_funding wallet : obeys (funding_call wallet) any (fundWallet gw wallet).
Proof.
  unfold fundWallet. obey ltac:(simpl; auto) ltac:(apply ensureMinerWallet_funding).
Qed.

End Funding.

(** X11: whatever the gateway answers, [fundWallet] only issues the
    wallet's own balance and address requests, [generatetoaddress] of 50
    blocks or of 1, the bootstrap of [miner], and from [miner] a balance
    request and a payment of exactly 5.  It never pays out of the wallet it
    funds, makes at most one payment, and leaves the files alone. *)
Theorem fundWallet_requests {G} (gw : Gateway G) (wallet : string) (w : World G) :
  Forall (funding_call wallet) (issued (fundWallet gw wallet) w) ∧
  (length (payments (issued (fundWallet gw wallet) w)) ≤ 1)%nat ∧
  files (fundWallet gw wallet w).2 = files w.
Proof.
  split; [eapply obeys_issued, fundWallet_funding|].
  split; [|eapply obeys_files, fundWallet_funding].
  unfold issued, fundWallet, ensureMinerWallet, try_catch, mbind, M_bind, command, mret, M_ret.
  simpl.
  answers gw; rewrite <- ?app_assoc, drop_app_length; simpl; lia.
Qed.

(** * The watcher and the multisig addresses *)

(** X12: a rejected descriptor import does not stop [createWatcherWallet].
    Once the watcher wallet is loaded or created, the method issues exactly
    one [importdescriptors] request, for the sorted multisig descriptor of
    the signers, active, over the range 0 to 100 and with the timestamp
    "now", and returns the watcher's name whatever the answer. *)
Theorem createWatcherWallet_tolerates_import {G} (gw : Gateway G) (scenario : string)
    (signers : list Signer) (w w1 : World G) :
  ensureLoaded gw (scenario +:+ "_watcher") true w = (Done tt, w1) →
  ∃ n, createWatcherWallet gw scenario signers w =
         (Done (scenario +:+ "_watcher"),
          after w1 n
            [(Some (scenario +:+ "_watcher"),
              importdescriptors
                [{| desc := multisigDescriptor signers; active := true;
                    range := (0%nat, 100%nat); timestamp := "now" |}])]).
Proof.
  intros Hloaded. unfold createWatcherWallet, importMultisigDescriptor.
  rewrite (bind_done _ _ _ _ _ Hloaded); cbv beta.
  unfold try_catch, mbind, M_bind, command, mret, M_ret.
  match goal with |- context [gw ?c ?r ?n] => destruct (gw c r n) as [[e|[]] n1] end;
    by exists n1.
Qed.

Lemma createWatcherWallet_tolerates_import_witness :
  let gw := refusing is_importdescriptors insufficient_funds (regtest true) in
  (createWatcherWallet gw "bad_waste" [signer_1; signer_2] (start (fresh_node 200 []))).1 =
    Done "bad_waste_watcher".
Proof.
  intros gw.
  destruct (createWatcherWallet_tolerates_import gw "bad_waste" [signer_1; signer_2]
              (start (fresh_node 200 []))
              (ensureLoaded gw "bad_waste_watcher" true (start (fresh_node 200 []))).2 eq_refl)
    as (n & ->).
  reflexivity.
Defined.

Section Multisig.

Context {G : Type} (gw : Gateway G).

Lemma obeys_collect_length {A B} P (xs : list A) (body : A → M G B) :
  (∀ x, x ∈ xs → obeys P any (body x)) →
  obeys P (fun ys => length ys = length xs) (collect xs body).
Proof.
  intros Hbody. induction xs as [|x xs IH]; simpl.
  - by apply obeys_ret.
  - eapply obeys_bind with (Q := any); [apply Hbody; by left|]. intros y _.
    eapply obeys_bind; [apply IH; intros; apply Hbody; by right|].
    intros ys Hys. apply obeys_ret. simpl. by rewrite Hys.
Qed.

Lemma createMultisigAddress_obeys signers :
  obeys (multisig_call signers)
    (fun made => length made.2 = 4%nat ∧ head made.2 = Some made.1)
    (createMultisigAddress gw signers).
Proof.
  unfold createMultisigAddress.
  eapply obeys_bind.
  - apply obeys_collect_length. intros i _.
    eapply obeys_bind.
    + apply obeys_collect_length. intros signer Hin.
      assert (wallet signer ∈ map wallet signers) as Hown by (by apply list_elem_of_fmap_2).
      obey ltac:(simpl; assumption) fail.
    + intros pubkeys Hkeys. simpl in Hkeys.
      destruct signers as [|s rest]; simpl; [apply obeys_throw|].
      eapply obeys_bind with (Q := fun first => first = wallet s); [by apply obeys_ret|].
      intros first ->. apply (obeys_command gw _ (Some (wallet s)) (createmultisig 2 pubkeys)).
      simpl. by rewrite Hkeys.
  - intros addresses Hlen. simpl in Hlen. apply obeys_ret. simpl.
    split; [done|]. by destruct addresses.
Qed.

End Multisig.

(** X13: [createMultisigAddress] only talks to the signers' wallets: it
    asks them for addresses and their public keys, and asks the first
    signer's wallet for 2-of-n multisig addresses over one key per signer.
    When it completes it returns four addresses, the first of which is the
    wallet's multisig address.  Without any signer it raises before issuing
    a request. *)
Theorem createMultisigAddress_shape {G} (gw : Gateway G) (signers : list Signer) (w : World G) :
  Forall (multisig_call signers) (issued (createMultisigAddress gw signers) w) ∧
  (∀ first addresses,
     (createMultisigAddress gw signers w).1 = Done (first, addresses) →
     length addresses = 4%nat ∧ head addresses = Some first) ∧
  (signers = [] → ∃ e, createMultisigAddress gw signers w = (Raised e, w)).
Proof.
  split; [eapply obeys_issued, createMultisigAddress_obeys|]. split.
  - intros first addresses Hrun.
    destruct (createMultisigAddress_obeys gw signers w) as (tr & _ & _ & _ & Hres).
    exact (Hres _ Hrun).
  - intros ->. eexists. reflexivity.
Qed.

Lemma createMultisigAddress_shape_witness :
  let run := createMultisigAddress (regtest true) [signer_1; signer_2] (start (fresh_node 200 [])) in
  (∃ first addresses, run.1 = Done (first, addresses) ∧
     length addresses = 4%nat ∧ head addresses = Some first) ∧
  (∃ e, createMultisigAddress (regtest true) [] (start (fresh_node 200 [])) =
          (Raised e, start (fresh_node 200 []))).
Proof.
  intros run.
  destruct (createMultisigAddress_shape (regtest true) [signer_1; signer_2]
              (start (fresh_node 200 []))) as (_ & Hmade & _).
  destruct (createMultisigAddress_shape (regtest true) [] (start (fresh_node 200 [])))
    as (_ & _ & Hnone).
  split; [|exact (Hnone eq_refl)].
  eexists _, _. split; [vm_compute; reflexivity|]. apply Hmade. vm_compute. reflexivity.
Defined.

(** * Batched payments *)

Lemma obj_set_known addr amount outputs :
  addr ∈ outputs.*1 → (obj_set addr amount outputs).*1 = outputs.*1.
Proof.
  induction outputs as [|[k v] rest IH]; intros Hin.
  - by apply elem_of_nil in Hin.
  - cbn [obj_set]. destruct (String.eqb k addr) eqn:E; [done|].
    apply String.eqb_neq in E. cbn [fmap list_fmap fst] in *.
    apply elem_of_cons in Hin as [?|Hin]; [congruence|]. by rewrite (IH Hin).
Qed.

Lemma obj_set_new addr amount outputs :
  addr ∉ outputs.*1 → (obj_set addr amount outputs).*1 = (outputs.*1 ++ [addr])%list.
Proof.
  induction outputs as [|[k v] rest IH]; intros Hin; [done|].
  cbn [obj_set]. cbn [fmap list_fmap fst] in *.
  apply not_elem_of_cons in Hin as [Hne Hin].
  destruct (String.eqb k addr) eqn:E; [apply String.eqb_eq in E; congruence|].
  cbn [fmap list_fmap fst]. rewrite (IH Hin). done.
Qed.

Lemma obj_set_values (ok : Q → Prop) addr amount outputs :
  ok amount → Forall (fun kv => ok kv.2) outputs →
  Forall (fun kv => ok kv.2) (obj_set addr amount outputs).
Proof.
  intros Hok Hall. induction Hall as [|[k v] rest Hv Hrest IH]; simpl.
  - by apply List.Forall_cons.
  - destruct (String.eqb k addr); apply List.Forall_cons; auto.
Qed.

Lemma obj_set_NoDup addr amount outputs :
  NoDup outputs.*1 → NoDup (obj_set addr amount outputs).*1.
Proof.
  intros Hnd. destruct (decide (addr ∈ outputs.*1)) as [Hin|Hin].
  - by rewrite obj_set_known.
  - rewrite obj_set_new by done.
    apply NoDup_app. split; [done|]. split; [|apply NoDup_singleton].
    intros x Hx ->%list_elem_of_singleton. done.
Qed.

Lemma obj_set_length addr amount outputs :
  (length outputs ≤ length (obj_set addr amount outputs) ≤ S (length outputs))%nat ∧
  (1 ≤ length (obj_set addr amount outputs))%nat.
Proof.
  rewrite <- (length_fmap fst (obj_set addr amount outputs)), <- (length_fmap fst outputs).
  destruct (decide (addr ∈ outputs.*1)) as [Hin|Hin].
  - rewrite obj_set_known by done.
    destruct (outputs.*1); [by apply elem_of_nil in Hin|]. simpl. lia.
  - rewrite obj_set_new by done. rewrite length_app. simpl. lia.
Qed.

Section Batches.

Context {G : Type} (gw : Gateway G) (rnd : nat → Q).

Lemma fill_outputs_obeys P (ok : Q → Prop) n coordinator (amount : M G Q) outputs :
  P (Some coordinator, getnewaddress) → obeys P ok amount →
  NoDup outputs.*1 → Forall (fun kv => ok kv.2) outputs →
  obeys P
    (fun filled =>
       NoDup filled.*1 ∧ Forall (fun kv => ok kv.2) filled ∧
       (length filled ≤ length outputs + n)%nat ∧
       ((0 < length outputs + n)%nat → (1 ≤ length filled)%nat))
    (fill_outputs gw n coordinator amount outputs).
Proof.
  intros Haddr Hamount. revert outputs.
  induction n as [|n IH]; intros outputs Hnd Hok; simpl.
  - apply obeys_ret. repeat split; auto; lia.
  - eapply obeys_bind with (Q := any);
      [apply (obeys_command gw P (Some coordinator) getnewaddress Haddr)|].
    intros addr _. eapply obeys_bind; [exact Hamount|]. intros a Ha.
    eapply obeys_weaken; [by auto| |apply (IH (obj_set addr a outputs))].
    + intros filled (? & ? & Hle & Hpos).
      pose proof (obj_set_length addr a outputs).
      repeat split; auto; lia.
    + by apply obj_set_NoDup.
    + by apply obj_set_values.
Qed.

Lemma random_amount_obeys P scale offset :
  obeys (G:=G) P (fun v => ∃ i, v = toFixed8 (rnd i * scale + offset))
    (random_amount rnd scale offset).
Proof.
  intros w. exists []. unfold random_amount, mbind, M_bind, Math_random, mret, M_ret. simpl.
  rewrite app_nil_r. repeat split; auto. intros a [= <-]. by eexists.
Qed.

Lemma createBadWastePattern_batch signers :
  obeys (batch 15 (fun v => v = 0.00001%Q)) any (createBadWastePattern gw rnd signers).
Proof.
  unfold createBadWastePattern.
  eapply obeys_bind with (Q := any); [destruct signers; [apply obeys_throw | by apply obeys_ret]|].
  intros coordinator _.
  eapply obeys_bind.
  { apply (fill_outputs_obeys _ (fun v => v = 0.00001%Q)); try done.
    - by apply obeys_ret.
    - simpl. constructor. }
  intros dust (Hnd & Hok & Hle & Hpos). simpl in Hle, Hpos.
  eapply obeys_bind with (Q := any).
  { apply (obeys_command gw _ (Some coordinator) (sendmany "" dust)).
    unfold batch. simpl. repeat split; auto; apply Hpos; lia. }
  intros _ _. unfold random_amount. obey ltac:(exact I) fail.
Qed.

Lemma createGoodWastePattern_batch signers :
  obeys (batch 3 (fun v => ∃ i, v = toFixed8 (rnd i * 0.05 + 0.01))) any
    (createGoodWastePattern gw rnd signers).
Proof.
  unfold createGoodWastePattern.
  eapply obeys_bind with (Q := any); [destruct signers; [apply obeys_throw | by apply obeys_ret]|].
  intros coordinator _.
  eapply obeys_bind with (Q := any); [obey ltac:(exact I) fail|]. intros balance _.
  eapply obeys_bind with (Q := any); [|intros _ _; obey ltac:(exact I) fail].
  destruct (Qltb balance 1).
  { unfold random_amount. obey ltac:(exact I) fail. }
  eapply obeys_bind with (Q := any); [unfold random_amount; obey ltac:(exact I) fail|].
  intros _ _.
  eapply obeys_bind.
  { apply (fill_outputs_obeys _ (fun v => ∃ i, v = toFixed8 (rnd i * 0.05 + 0.01))); try done.
    - apply random_amount_obeys.
    - simpl. constructor. }
  intros filled (Hnd & Hok & Hle & Hpos). simpl in Hle, Hpos.
  apply obeys_catch; [|intros ?; by apply obeys_ret].
  apply (obeys_command gw _ (Some coordinator) (sendmany "" filled)).
  unfold batch. simpl. repeat split; auto.
Qed.

End Batches.


(** * The good patterns are best effort *)

Section Completes.

Context {G : Type} (gw : Gateway G) (rnd : nat → Q).

Lemma completes_ret {A} (a : A) : completes (G:=G) (mret a).
Proof. intros w. by eexists _, _. Qed.

Lemma completes_bind {A B} (m : M G A) (f : A → M G B) :
  completes m → (∀ a, completes (f a)) → completes (m ≫= f).
Proof.
  intros Hm Hf w. destruct (Hm w) as (a & w1 & E).
  unfold mbind, M_bind. rewrite E. apply Hf.
Qed.

Lemma completes_first {A B} (a : A) (f : A → M G B) :
  completes (f a) → completes (mret a ≫= f).
Proof. intros Hf w. apply Hf. Qed.

Lemma completes_handled {A} (m : M G A) (h : JsError → M G A) :
  (∀ e, completes (h e)) → completes (try_catch m h).
Proof.
  intros Hh w. unfold try_catch. destruct (m w) as [[a|e] w1]; [by eexists _, _ | apply Hh].
Qed.

Lemma completes_attempt {A} (m : M G A) : completes (attempt m).
Proof. apply completes_handled. intros _. apply completes_ret. Qed.

Lemma completes_command ctx r : accepts gw ctx r → completes (command gw ctx r).
Proof.
  intros Hacc w. destruct (Hacc (node w)) as (v & n & E).
  unfold command. rewrite E. by eexists _, _.
Qed.

Lemma completes_random : completes (G:=G) (Math_random rnd).
Proof. intros w. by eexists _, _. Qed.

Lemma completes_for_each_break {A} (xs : list A) (body : A → M G bool) :
  (∀ x, completes (body x)) → completes (for_each_break xs body).
Proof.
  intros Hbody. induction xs as [|x xs IH]; simpl; [apply completes_ret|].
  apply completes_bind; [apply Hbody|]. intros []; [exact IH | apply completes_ret].
Qed.

Lemma completes_fill_outputs n coordinator (amount : M G Q) outputs :
  accepts gw (Some coordinator) getnewaddress → completes amount →
  completes (fill_outputs gw n coordinator amount outputs).
Proof.
  intros Haddr Hamount. revert outputs. induction n as [|n IH]; intros outputs; simpl.
  - apply completes_ret.
  - apply completes_bind;
      [by apply (completes_command (Some coordinator) getnewaddress)|]. intros addr.
    apply completes_bind; [exact Hamount|]. intros a. apply IH.
Qed.

End Completes.

(** Decomposes a goal [completes m] along the structure of [m]. *)
Ltac complete :=
  repeat first
    [ assumption
    | lazymatch goal with
      | |- completes (mret _) => apply completes_ret
      | |- completes (command ?gw ?ctx ?r) => apply (completes_command gw ctx r); auto
      | |- completes (Math_random _) => apply completes_random
      | |- completes (random_amount _ _ _) => unfold random_amount
      | |- completes (attempt _) => apply completes_attempt
      | |- completes (for_each_break _ _) => apply completes_for_each_break; intros ?
      | |- completes (try_catch _ _) => apply completes_handled; intros ?
      | |- completes (fill_outputs _ _ _ _ _) => apply completes_fill_outputs; auto
      | |- completes (_ ≫= _) => apply completes_bind; [|intros ?]
      | |- completes (if ?b then _ else _) => destruct b
      end ].

(** X19: payments are best effort in the good patterns.  With at least one
    signer, [createGoodPrivacyPattern] and [createGoodWastePattern] complete
    whenever the gateway answers the coordinator's balance and address
    requests and the mining of 2 blocks, whatever it answers to the
    payments. *)
Theorem good_patterns_complete {G} (gw : Gateway G) (rnd : nat → Q) (first : Signer)
    (others : list Signer) (w : World G) :
  accepts gw (Some (wallet first)) getbalance →
  accepts gw (Some (wallet first)) getnewaddress →
  (∀ address, accepts gw None (generatetoaddress 2 address)) →
  (createGoodPrivacyPattern gw rnd (first :: others) w).1 = Done tt ∧
  (createGoodWastePattern gw rnd (first :: others) w).1 = Done tt.
Proof.
  intros Hbalance Haddress Hmine.
  assert (completes (createGoodPrivacyPattern gw rnd (first :: others))) as Hprivacy.
  { unfold createGoodPrivacyPattern, coordinator_of. cbv iota. apply completes_first. complete. }
  assert (completes (createGoodWastePattern gw rnd (first :: others))) as Hwaste.
  { unfold createGoodWastePattern, coordinator_of. cbv iota. apply completes_first. complete. }
  destruct (Hprivacy w) as ([] & w1 & ->). destruct (Hwaste w) as ([] & w2 & ->). done.
Qed.

Lemma good_patterns_complete_witness :
  let gw := refusing (fun c => is_sendtoaddress c || is_sendmany c) insufficient_funds
              (regtest true) in
  let w := start (fresh_node 200 [("bad_privacy_signer_1", 3%Q)]) in
  (createGoodPrivacyPattern gw halves [signer_1; signer_2] w).1 = Done tt ∧
  (createGoodWastePattern gw halves [signer_1; signer_2] w).1 = Done tt.
Proof.
  intros gw w.
  apply (good_patterns_complete gw halves signer_1 [signer_2] w).
  - intros n. eexists _, _. reflexivity.
  - intros n. eexists _, _. reflexivity.
  - intros address n. eexists _, _. reflexivity.
Defined.

(** * The exported document *)

Lemma string_app_length (s t : string) :
  String.length (s +:+ t) = (String.length s + String.length t)%nat.
Proof.
  induction s as [|c s IH]; [done|].
  change (String c s +:+ t) with (String c (s +:+ t)). simpl. by rewrite IH.
Qed.

Lemma string_app_inv_tail (s s' t : string) : s +:+ t = s' +:+ t → s = s'.
Proof.
  revert s'. induction s as [|c s IH]; intros [|c' s'] E.
  - done.
  - apply (f_equal String.length) in E.
    change (String c' s' +:+ t) with (String c' (s' +:+ t)) in E.
    change ("" +:+ t) with t in E. simpl in E. rewrite string_app_length in E. lia.
  - apply (f_equal String.length) in E.
    change (String c s +:+ t) with (String c (s +:+ t)) in E.
    change ("" +:+ t) with t in E. simpl in E. rewrite string_app_length in E. lia.
  - change (String c s +:+ t) with (String c (s +:+ t)) in E.
    change (String c' s' +:+ t) with (String c' (s' +:+ t)) in E.
    injection E as -> E. by rewrite (IH _ E).
Qed.

Lemma configPath_inj (a b : string) : configPath a = configPath b → a = b.
Proof.
  unfold configPath. intros E.
  change ("tmp/" +:+ ?x) with (String "t" (String "m" (String "p" (String "/" x)))) in E.
  injection E as E. by apply string_app_inv_tail in E.
Qed.



(** * The errors of a whole run *)

Section Errors.

Context {G : Type} (gw : Gateway G) (rnd : nat → Q) (cfg : Config).

Lemma scenario_loop_raises (todo : list (string * M G unit)) (w : World G) e :
  (for_each todo (fun scenario =>
     try_catch (fs_access (configPath scenario.1)) (fun _ => scenario.2)) w).1 = Raised e →
  ∃ entry w1, entry ∈ todo ∧ files w1 !! configPath entry.1 = None ∧ (entry.2 w1).1 = Raised e.
Proof.
  revert w. induction todo as [|[scenario generator] todo IH]; intros w; simpl; [done|].
  unfold mbind, M_bind. rewrite access_or_generate.
  destruct (files w !! configPath scenario) as [doc|] eqn:Hdoc.
  - intros Hrest. destruct (IH w Hrest) as (entry & w1 & Hin & Hnone & Hraised).
    exists entry, w1. split; [by right | done].
  - destruct (generator w) as [[[]|e'] w1] eqn:Hrun; simpl.
    + intros Hrest. destruct (IH w1 Hrest) as (entry & w2 & Hin & Hnone & Hraised).
      exists entry, w2. split; [by right | done].
    + intros [= ->]. exists (scenario, generator), w. simpl. rewrite Hrun.
      split; [by left | done].
Qed.

End Errors.



(** * The amounts paid by the patterns *)

(** Rounding to eight decimals stays within bounds that are themselves
    multiples of 10^-8. *)
Lemma toFixed8_between (a b : Z) (lo hi x : Q) :
  (lo * 100000000 == inject_Z a)%Q → (hi * 100000000 == inject_Z b)%Q →
  (lo <= x)%Q → (x <= hi)%Q → (lo <= toFixed8 x)%Q ∧ (toFixed8 x <= hi)%Q.
Proof.
  intros Ha Hb Hlo Hhi. unfold toFixed8.
  assert (a <= Qfloor (x * 100000000 + (1 # 2)))%Z as H1.
  { rewrite <- (Qfloor_Z a). apply Qfloor_resp_le. lra. }
  assert (Qfloor (x * 100000000 + (1 # 2)) < b + 1)%Z as H2.
  { pose proof (Qfloor_le (x * 100000000 + (1 # 2))) as Hfl.
    rewrite Zlt_Qlt, inject_Z_plus. change (inject_Z 1) with 1%Q. lra. }
  revert H1 H2. generalize (Qfloor (x * 100000000 + (1 # 2))). intros z H1 H2.
  assert (z <= b)%Z as H3 by lia.
  rewrite Zle_Qle in H1, H3. unfold Qdiv. change (/ 100000000)%Q with (1 # 100000000)%Q.
  split; lra.
Qed.

Section Sizes.

Context {G : Type} (gw : Gateway G) (rnd : nat → Q).
Hypothesis Hrnd : unit_draws rnd.

Lemma obeys_for_each_in {A} P (xs : list A) (body : A → M G unit) :
  (∀ x, x ∈ xs → obeys P any (body x)) → obeys P any (for_each xs body).
Proof.
  intros Hbody. induction xs as [|x xs IH]; simpl.
  - by apply obeys_ret.
  - eapply obeys_bind with (Q := any); [apply Hbody; by left|]. intros _ _.
    apply IH. intros. apply Hbody. by right.
Qed.

Lemma random_amount_between (a b : Z) (lo hi scale offset : Q) P :
  (lo * 100000000 == inject_Z a)%Q → (hi * 100000000 == inject_Z b)%Q →
  (0 <= scale)%Q → (lo <= offset)%Q → (scale + offset <= hi)%Q →
  obeys (G:=G) P (fun v => (lo <= v)%Q ∧ (v <= hi)%Q) (random_amount rnd scale offset).
Proof.
  intros Ha Hb Hscale Hlo Hhi.
  eapply obeys_weaken; [by auto| |apply (random_amount_obeys rnd P scale offset)].
  intros v [i ->]. destruct (Hrnd i) as [H0 H1].
  apply (toFixed8_between a b); [done | done | nra | nra].
Qed.

Lemma createBadPrivacyPattern_sizes signers :
  obeys (pays_between 0.5 5) any (createBadPrivacyPattern gw signers).
Proof.
  unfold createBadPrivacyPattern.
  eapply obeys_bind with (Q := any); [destruct signers; [apply obeys_throw | by apply obeys_ret]|].
  intros coordinator _.
  eapply obeys_bind with (Q := any); [obey ltac:(exact I) fail|]. intros reused _.
  eapply obeys_bind with (Q := any).
  { obey ltac:(simpl; split; lra) fail. }
  intros _ _.
  eapply obeys_bind with (Q := any); [|intros _ _; obey ltac:(exact I) fail].
  apply obeys_for_each_in. intros amount Hin.
  eapply obeys_bind with (Q := any); [obey ltac:(exact I) fail|]. intros addr _.
  apply (obeys_command gw _ (Some coordinator) (sendtoaddress addr amount)). simpl.
  apply list_elem_of_In in Hin. simpl in Hin.
  destruct Hin as [<-|[<-|[<-|[]]]]; split; lra.
Qed.

Lemma fill_outputs_any P n coordinator (amount : M G Q) outputs :
  P (Some coordinator, getnewaddress) → obeys P any amount →
  obeys P any (fill_outputs gw n coordinator amount outputs).
Proof.
  intros Haddr Hamount. revert outputs. induction n as [|n IH]; intros outputs; simpl.
  - by apply obeys_ret.
  - eapply obeys_bind with (Q := any);
      [apply (obeys_command gw P (Some coordinator) getnewaddress Haddr)|].
    intros addr _. eapply obeys_bind with (Q := any); [exact Hamount|]. intros a _. apply IH.
Qed.

End Sizes.

(** As [obey], for a property of the amounts paid: [between] bounds the
    amounts drawn by [random_amount]. *)
Ltac sized between :=
  repeat first
    [ lazymatch goal with
      | |- obeys _ _ (random_amount _ _ _ ≫= _) =>
          eapply obeys_bind; [between | intros ? [? ?]]
      | |- obeys _ _ (random_amount _ _ _) => eapply obeys_any, random_amount_obeys
      | |- obeys _ _ (fill_outputs _ _ _ _ _) => apply fill_outputs_any; [exact I|]
      | |- obeys _ _ (mret _) => apply obeys_ret; exact I
      | |- obeys _ _ (throw _) => apply obeys_throw
      | |- obeys ?P _ (command ?gw ?ctx ?r) =>
          apply (obeys_command gw P ctx r); simpl;
          first [exact I | split; first [assumption | lra]]
      | |- obeys _ _ (Math_random _) => apply obeys_random
      | |- obeys _ _ (attempt _) => eapply obeys_attempt
      | |- obeys _ _ (for_each _ _) => apply obeys_for_each; intros ?
      | |- obeys _ _ (for_each_break _ _) => apply obeys_for_each_break; intros ?
      | |- obeys _ _ (try_catch _ _) => apply obeys_catch; [|intros ?]
      | |- obeys _ _ (_ ≫= _) => eapply obeys_bind with (Q := any); [|intros ? _]
      | |- obeys _ _ (if ?b then _ else _) => destruct b
      | |- obeys _ _ (match ?x with _ => _ end) => destruct x
      end ].

Section PatternSizes.

Context {G : Type} (gw : Gateway G) (rnd : nat → Q).
Hypothesis Hrnd : unit_draws rnd.

Lemma createBadWastePattern_sizes signers :
  obeys (pays_between 0.001 0.101) any (createBadWastePattern gw rnd signers).
Proof.
  unfold createBadWastePattern, coordinator_of.
  sized ltac:(apply (random_amount_between rnd Hrnd 100000 10100000 0.001 0.101); [by vm_compute | by vm_compute | lra..]).
Qed.

Lemma createGoodPrivacyPattern_sizes signers :
  obeys (pays_between 0.01 0.11) any (createGoodPrivacyPattern gw rnd signers).
Proof.
  unfold createGoodPrivacyPattern, coordinator_of.
  sized ltac:(apply (random_amount_between rnd Hrnd 1000000 11000000 0.01 0.11); [by vm_compute | by vm_compute | lra..]).
Qed.

Lemma createGoodWastePattern_sizes signers :
  obeys (pays_between 0.01 0.12) any (createGoodWastePattern gw rnd signers).
Proof.
  unfold createGoodWastePattern, coordinator_of.
  sized ltac:(apply (random_amount_between rnd Hrnd 1000000 12000000 0.01 0.12); [by vm_compute | by vm_compute | lra..]).
Qed.

End PatternSizes.


